(** * Point-to-transaction compiler of the Modbus client (ics_clients.py)

    A shallow embedding of [ModbusClient._requestPoints], [readPoints] and
    [writePoints], and the properties of the grouping planner, the
    transaction adapter and the result assembler.

    The transport ([self.master.execute], a modbus_tk master) is outside the
    repository: it is a parameter of the development, a transition function on
    an abstract device state.  Every call made to it is logged, so that the
    transactions a request issues can be stated. *)

From stdpp Require Import gmap strings list fin_maps sorting.

Local Open Scope string_scope.
Local Open Scope list_scope.
Local Open Scope Z_scope.

(** ** Constants of modbus_tk.defines *)

(** Block types.  In modbus_tk.defines they are the integers 1, 2, 3, 4, in
    this order. *)
Inductive blocktype : Type :=
  | COILS
  | DISCRETE_INPUTS
  | HOLDING_REGISTERS
  | ANALOG_INPUTS.

(** Function codes, distinct integers in modbus_tk.defines. *)
Inductive function_code : Type :=
  | READ_COILS
  | READ_DISCRETE_INPUTS
  | READ_HOLDING_REGISTERS
  | READ_INPUT_REGISTERS
  | WRITE_SINGLE_COIL
  | WRITE_SINGLE_REGISTER
  | WRITE_MULTIPLE_COILS
  | WRITE_MULTIPLE_REGISTERS.

#[global] Instance blocktype_eq_dec : EqDecision blocktype.
Proof. solve_decision. Defined.

#[global] Instance function_code_eq_dec : EqDecision function_code.
Proof. solve_decision. Defined.

(** ** Data of the client *)

(** A point description of [slave_points]: [pt['name']],
    [pt['metadata']['modbus']['blocktype']] and
    [int(pt['metadata']['modbus']['addr'])]. *)
Record ptdesc : Type := Ptdesc {
  pt_name : string;
  pt_blocktype : blocktype;
  pt_addr : Z
}.

#[global] Instance ptdesc_eq_dec : EqDecision ptdesc.
Proof. solve_decision. Defined.

(** [self]: the slave identifier [to_config['id']] and the points list. *)
Record client : Type := Client {
  to_config_id : Z;
  slave_points : list ptdesc
}.

(** The [points] argument: an iterable of names, or one bare name (a Python 2
    string has no [__iter__] attribute). *)
Inductive points_arg : Type :=
  | PointName (name : string)
  | PointNames (names : list string).

(** The [pointsvalues] argument of [writePoints]: a dictionary or a list of
    (name, value) pairs, or one bare (name, value) pair. *)
Inductive pointsvalues_arg : Type :=
  | PointsValues (pairs : list (string * Z))
  | PointValue (name : string) (value : Z).

(** An entry of [requestPoints]: [(pt['name'], reqOffset, pt)]. *)
Definition member : Type := string * Z * ptdesc.

Definition m_name (t : member) : string := t.1.1.
Definition m_offset (t : member) : Z := t.1.2.
Definition m_pt (t : member) : ptdesc := t.2.

(** The keyword argument handed to [master.execute]. *)
Inductive payload : Type :=
  | quantity_of_x (n : Z)
  | output_value (v : Z)
  | output_values (vs : list Z).

(** One call [master.execute(slaveAddress, function, startAddress, ...)]. *)
Record request : Type := Request {
  req_slave : Z;
  req_function : option function_code;
  req_start : Z;
  req_payload : payload
}.

(** A group that reached the [if endOfGroup:] block: the block type of the
    enclosing iteration, [startAddress] and [requestPoints]. *)
Record group : Type := Group {
  grp_type : blocktype;
  grp_start : Z;
  grp_members : list member
}.

(** ** [ModbusClient] class attributes *)

Definition MAXDISTANCE : Z := 5.

Definition FUNCTION_MAP (pointType : blocktype)
  : option function_code * option function_code * option function_code :=
  match pointType with
  | COILS =>
      (Some READ_COILS, Some WRITE_SINGLE_COIL, Some WRITE_MULTIPLE_COILS)
  | DISCRETE_INPUTS => (Some READ_DISCRETE_INPUTS, None, None)
  | HOLDING_REGISTERS =>
      (Some READ_HOLDING_REGISTERS, Some WRITE_SINGLE_REGISTER,
       Some WRITE_MULTIPLE_REGISTERS)
  | ANALOG_INPUTS => (Some READ_INPUT_REGISTERS, None, None)
  end.

(** [t[i]] on a 3-tuple, for the indices 0, 1 and 2 that [commandType]
    takes. *)
Definition tuple_index {A : Type} (t : A * A * A) (i : nat) : A :=
  match i with
  | O => t.1.1
  | S O => t.1.2
  | _ => t.2
  end.

(** [pointsByType.keys()]: a CPython 2 dictionary with the keys 1, 2, 3, 4
    is iterated in this order. *)
Definition pointsByType_keys : list blocktype :=
  [COILS; DISCRETE_INPUTS; HOLDING_REGISTERS; ANALOG_INPUTS].

(** ** Pure helpers of [_requestPoints] *)

Definition getaddr (p : ptdesc) : Z := pt_addr p.

(** [closeenough = lambda p,q: getaddr(p) - getaddr(q) <=
                       (self.MAXDISTANCE if rw=='r' else 1)] *)
Definition closeenough (rw : string) (p q : ptdesc) : bool :=
  bool_decide (getaddr p - getaddr q ≤
               (if decide (rw = "r") then MAXDISTANCE else 1)).

(** [list.sort(key = getaddr)]: a stable sort, ascending by address. *)
Fixpoint sort_insert (x : ptdesc) (l : list ptdesc) : list ptdesc :=
  match l with
  | [] => [x]
  | y :: l' =>
      if bool_decide (getaddr x ≤ getaddr y) then x :: y :: l'
      else y :: sort_insert x l'
  end.

Fixpoint sort_by_addr (l : list ptdesc) : list ptdesc :=
  match l with
  | [] => []
  | x :: l' => sort_insert x (sort_by_addr l')
  end.

(** The dictionary [pointsByType], total on the four block types. *)
Definition pointsByType_init : blocktype → list ptdesc := λ _, [].

Definition pointsByType_append (m : blocktype → list ptdesc)
    (pointtype : blocktype) (desc : ptdesc) : blocktype → list ptdesc :=
  λ k, if decide (k = pointtype) then m k ++ [desc] else m k.

(** [for ptdesc in [pt for pt in self.slave_points if pt['name'] in points]:
       pointsByType[pointtype].append(ptdesc)] *)
Definition group_by_type (slave_points : list ptdesc) (points : list string)
  : blocktype → list ptdesc :=
  foldl (λ m pt, pointsByType_append m (pt_blocktype pt) pt)
        pointsByType_init
        (filter (λ pt, pt_name pt ∈ points) slave_points).

(** [reply[i]] on a tuple: a negative index counts from the end. *)
Definition py_index (reply : list Z) (i : Z) : option Z :=
  if bool_decide (0 ≤ i) then reply !! Z.to_nat i
  else if bool_decide (0 ≤ Z.of_nat (length reply) + i)
       then reply !! Z.to_nat (Z.of_nat (length reply) + i)
       else None.

(** [replies.update(generator)] *)
Definition replies_update (replies : gmap string Z) (kvs : list (string * Z))
  : gmap string Z :=
  foldl (λ r kv, <[kv.1 := kv.2]> r) replies kvs.

(** ** Effects: the transport, the log, exceptions *)

Section Transport.

(** The device behind [self.master] and what [execute] raises. *)
Context {Dev TErr : Type}.
Variable master_execute : Dev → request → Dev * (TErr + list Z).

Inductive exn : Type :=
  | Exception (message : string)
  | KeyError (key : string)
  | IndexError
  | TypeError
  | TransportError (e : TErr).

(** The state a call runs in: the device, the groups that reached the send
    block and the calls made to the transport, both oldest first. *)
Record world : Type := World {
  w_dev : Dev;
  w_groups : list group;
  w_calls : list request
}.

Definition M (A : Type) : Type := world → world * (exn + A).

Definition ret {A : Type} (a : A) : M A := λ w, (w, inr a).

Definition raise {A : Type} (e : exn) : M A := λ w, (w, inl e).

Definition bind {A B : Type} (c : M A) (k : A → M B) : M B :=
  λ w, match c w with
       | (w', inr a) => k a w'
       | (w', inl e) => (w', inl e)
       end.

Notation "'let!' x ':=' c 'in' k" := (bind c (λ x, k))
  (at level 10, x name, c at level 100, k at level 200).

Fixpoint mapM_ {A B : Type} (f : A → M B) (l : list A) : M (list B) :=
  match l with
  | [] => ret []
  | a :: l' =>
      let! b := f a in
      let! bs := mapM_ f l' in
      ret (b :: bs)
  end.

Fixpoint foldM {A S : Type} (f : S → A → M S) (s : S) (l : list A) : M S :=
  match l with
  | [] => ret s
  | a :: l' => let! s' := f s a in foldM f s' l'
  end.

(** [x] when it is there, the exception otherwise. *)
Definition or_raise {A : Type} (e : exn) (o : option A) : M A :=
  match o with
  | Some a => ret a
  | None => raise e
  end.

Definition log_group (g : group) : M unit :=
  λ w, (World (w_dev w) (w_groups w ++ [g]) (w_calls w), inr tt).

(** [self.master.execute], with the arguments of [args] and the keyword. *)
Definition execute (rq : request) : M (list Z) :=
  λ w, let (d', r) := master_execute (w_dev w) rq in
       (World d' (w_groups w) (w_calls w ++ [rq]),
        match r with
        | inl e => inl (TransportError e)
        | inr reply => inr reply
        end).

(** ** [_requestPoints] *)

Section RequestPoints.

Variable self : client.
Variable rw : string.
Variable values : option (gmap string Z).

(** [values[name]] *)
Definition values_get (name : string) : M Z :=
  match values with
  | None => raise TypeError
  | Some d => or_raise (KeyError name) (d !! name)
  end.

(** The body of [if endOfGroup:], up to [requestPoints = []]. *)
Definition send_request (pointType : blocktype)
    (requestPoints : list member) (replies : gmap string Z)
  : M (gmap string Z) :=
  let slaveAddress := to_config_id self in
  let! first := or_raise IndexError (head requestPoints) in
  let startAddress := getaddr (m_pt first) in
  let! _ := log_group (Group pointType startAddress requestPoints) in
  let commandType :=
    if decide (rw = "r") then 0%nat
    else if bool_decide (1 < length requestPoints)%nat then 2%nat
    else 1%nat in
  let function := tuple_index (FUNCTION_MAP pointType) commandType in
  if decide (rw = "r") then
    let! final := or_raise IndexError (last requestPoints) in
    let numberOfItems := m_offset final + 1 in
    let! reply :=
      execute (Request slaveAddress function startAddress
                       (quantity_of_x numberOfItems)) in
    let! generator :=
      mapM_ (λ t, let! v := or_raise IndexError (py_index reply (m_offset t)) in
                  ret (m_name t, v))
            requestPoints in
    ret (replies_update replies generator)
  else
    let! output :=
      if bool_decide (1 < length requestPoints)%nat then
        let! vs := mapM_ (λ p, values_get (m_name p)) requestPoints in
        ret (output_values vs)
      else
        let! v := values_get (m_name first) in
        ret (output_value v) in
    let! reply :=
      execute (Request slaveAddress function startAddress output) in
    ret replies.

(** [for index, pt in enumerate(pointsByType[pointType]):], with the
    variables the loop carries.  [rest] is what follows [pt] in the sorted
    list, so its head is [pointsByType[pointType][index+1]]. *)
Fixpoint points_loop (pointType : blocktype) (pts : list ptdesc)
    (requestPoints : list member) (reqBaseAddr : Z)
    (replies : gmap string Z) : M (Z * gmap string Z) :=
  match pts with
  | [] => ret (reqBaseAddr, replies)
  | pt :: rest =>
      let reqBaseAddr' :=
        if decide (length requestPoints = 0%nat) then getaddr pt
        else reqBaseAddr in
      let reqOffset :=
        if decide (length requestPoints = 0%nat) then 0
        else getaddr pt - reqBaseAddr in
      let requestPoints' := requestPoints ++ [(pt_name pt, reqOffset, pt)] in
      let endOfGroup :=
        match rest with
        | nextPoint :: _ => negb (closeenough rw pt nextPoint)
        | [] => true
        end in
      if endOfGroup then
        let! replies' := send_request pointType requestPoints' replies in
        points_loop pointType rest [] reqBaseAddr' replies'
      else
        points_loop pointType rest requestPoints' reqBaseAddr' replies
  end.

(** [reqBaseAddr] is unbound until the first point assigns it; the value it
    starts with here is never read, because [requestPoints] starts empty. *)
Definition _requestPoints (points : points_arg) : M (option (list Z)) :=
  if bool_decide (rw ≠ "r") && bool_decide (rw ≠ "w") then
    raise (Exception ("Unsupported operation " +:+ rw +:+
                      " for _requestPoints"))
  else
    let points :=
      match points with
      | PointName name => [name]
      | PointNames names => names
      end in
    let pointsByType := group_by_type (slave_points self) points in
    let! final :=
      foldM (λ '(reqBaseAddr, replies) pointType,
               points_loop pointType (sort_by_addr (pointsByType pointType))
                           [] reqBaseAddr replies)
            (0, ∅) pointsByType_keys in
    let replies := final.2 in
    if decide (rw = "r") then
      let! result :=
        mapM_ (λ name, or_raise (KeyError name) (replies !! name)) points in
      ret (Some result)
    else ret None.

End RequestPoints.

(** [readPoints] *)
Definition readPoints (self : client) (points : points_arg)
  : M (option (list Z)) :=
  _requestPoints self "r" None points.

(** [dict(pairs)]: a later pair of the same name wins. *)
Definition dict_of_pairs (pairs : list (string * Z)) : gmap string Z :=
  foldl (λ d kv, <[kv.1 := kv.2]> d) ∅ pairs.

(** [writePoints].  [dict(pointsvalues)] on one bare pair (name, value)
    raises [ValueError], which is caught, unless the name has two characters:
    then the name is itself taken as a pair and the value raises
    [TypeError]. *)
Definition writePoints (self : client) (pointsvalues : pointsvalues_arg)
  : M (option (list Z)) :=
  let! values :=
    match pointsvalues with
    | PointsValues pairs => ret (dict_of_pairs pairs)
    | PointValue name value =>
        if decide (String.length name = 2%nat) then raise TypeError
        else ret (dict_of_pairs [(name, value)])
    end in
  let points := (map_to_list values).*1 in
  _requestPoints self "w" (Some values) (PointNames points).

(** A call starts with empty logs. *)
Definition start (d : Dev) : world := World d [] [].

End Transport.

(** ** A stub slave

    A transport that keeps the four blocks in memory and answers from them.
    It rejects a call without a function code, as modbus_tk does. *)

Module Stub.

Inductive stub_error : Type :=
  | ModbusInvalidRequestError.

Definition memory : Type := blocktype → Z → Z.

Definition store (mem : memory) (bt : blocktype) (addr v : Z) : memory :=
  λ bt' addr',
    if decide (bt' = bt) then if decide (addr' = addr) then v else mem bt' addr'
    else mem bt' addr'.

Fixpoint store_all (mem : memory) (bt : blocktype) (addr : Z) (vs : list Z)
  : memory :=
  match vs with
  | [] => mem
  | v :: vs' => store_all (store mem bt addr v) bt (addr + 1) vs'
  end.

Definition read_block (mem : memory) (bt : blocktype) (addr n : Z)
  : memory * (stub_error + list Z) :=
  if bool_decide (0 < n) then (mem, inr (mem bt <$> seqZ addr n))
  else (mem, inl ModbusInvalidRequestError).

Definition write_one (mem : memory) (bt : blocktype) (addr v : Z)
  : memory * (stub_error + list Z) :=
  (store mem bt addr v, inr [addr; v]).

Definition write_many (mem : memory) (bt : blocktype) (addr : Z)
    (vs : list Z) : memory * (stub_error + list Z) :=
  (store_all mem bt addr vs, inr [addr; Z.of_nat (length vs)]).

Definition stub_execute (mem : memory) (rq : request)
  : memory * (stub_error + list Z) :=
  match req_function rq, req_payload rq with
  | Some READ_COILS, quantity_of_x n => read_block mem COILS (req_start rq) n
  | Some READ_DISCRETE_INPUTS, quantity_of_x n =>
      read_block mem DISCRETE_INPUTS (req_start rq) n
  | Some READ_HOLDING_REGISTERS, quantity_of_x n =>
      read_block mem HOLDING_REGISTERS (req_start rq) n
  | Some READ_INPUT_REGISTERS, quantity_of_x n =>
      read_block mem ANALOG_INPUTS (req_start rq) n
  | Some WRITE_SINGLE_COIL, output_value v =>
      write_one mem COILS (req_start rq) v
  | Some WRITE_SINGLE_REGISTER, output_value v =>
      write_one mem HOLDING_REGISTERS (req_start rq) v
  | Some WRITE_MULTIPLE_COILS, output_values vs =>
      write_many mem COILS (req_start rq) vs
  | Some WRITE_MULTIPLE_REGISTERS, output_values vs =>
      write_many mem HOLDING_REGISTERS (req_start rq) vs
  | _, _ => (mem, inl ModbusInvalidRequestError)
  end.

(** A memory whose every cell holds its own address. *)
Definition mem_addr : memory := λ _ addr, addr.

End Stub.

(** * Vocabulary of the properties *)

(** The order [sort(key = getaddr)] sorts by. *)
Definition addr_le (p q : ptdesc) : Prop := getaddr p ≤ getaddr q.

(** The entry of [requestPoints] for the point [pt] in a group that starts
    at [base]. *)
Definition member_of (base : Z) (pt : ptdesc) : member :=
  (pt_name pt, getaddr pt - base, pt).

(** What [requestPoints] holds while the points [qs] are pending. *)
Definition members_of (base : Z) (qs : list ptdesc) : list member :=
  member_of base <$> qs.

(** The loop invariant of [points_loop]: pending points [qs], points still
    to come [pts]. *)
Definition loop_inv (bt : blocktype) (qs : list ptdesc) (base : Z)
    (pts : list ptdesc) : Prop :=
  StronglySorted addr_le (qs ++ pts)
  ∧ Forall (λ pt, pt_blocktype pt = bt) (qs ++ pts)
  ∧ (∀ q, head qs = Some q → getaddr q = base).

(** A group as the loop builds it. *)
Definition well_formed (g : group) : Prop :=
  ∃ q qs,
    grp_members g = members_of (grp_start g) (q :: qs)
    ∧ getaddr q = grp_start g
    ∧ StronglySorted addr_le (q :: qs)
    ∧ Forall (λ pt, pt_blocktype pt = grp_type g) (q :: qs).

(** [commandType] *)
Definition command_type (rw : string) (requestPoints : list member) : nat :=
  if decide (rw = "r") then 0%nat
  else if bool_decide (1 < length requestPoints)%nat then 2%nat
  else 1%nat.

(** The call a read issues for a group: the read code of the group's type,
    from the address of the first member, over [lastOffset + 1] items. *)
Definition read_call (self : client) (g : group) (rq : request) : Prop :=
  ∃ first final,
    head (grp_members g) = Some first
    ∧ last (grp_members g) = Some final
    ∧ req_slave rq = to_config_id self
    ∧ req_function rq = (FUNCTION_MAP (grp_type g)).1.1
    ∧ req_start rq = getaddr (m_pt first)
    ∧ req_payload rq = quantity_of_x (m_offset final + 1).

(** The function code of the call made for a group. *)
Definition call_for (rw : string) (g : group) (rq : request) : Prop :=
  req_function rq
  = tuple_index (FUNCTION_MAP (grp_type g)) (command_type rw (grp_members g)).

(** A group holds points of the one block type it was built for. *)
Definition single_type (g : group) : Prop :=
  grp_members g ≠ []
  ∧ Forall (λ m, pt_blocktype (m_pt m) = grp_type g) (grp_members g).

(** The start address is that of the first member, every offset is the
    member's address minus the start address and is not negative, and the
    offsets do not decrease along the members. *)
Definition offsets_from_start (g : group) : Prop :=
  (∃ first, head (grp_members g) = Some first
            ∧ grp_start g = getaddr (m_pt first))
  ∧ Forall (λ m, m_offset m = getaddr (m_pt m) - grp_start g
                 ∧ 0 ≤ m_offset m)
           (grp_members g)
  ∧ StronglySorted Z.le (m_offset <$> grp_members g).

(** The code for one member is the single-item one, for two or more the
    multi-item one: [FUNCTION_MAP[pointType][1]] and
    [FUNCTION_MAP[pointType][2]]. *)
Definition sized_call (g : group) (rq : request) : Prop :=
  (length (grp_members g) = 1%nat →
   req_function rq = (FUNCTION_MAP (grp_type g)).1.2)
  ∧ ((2 ≤ length (grp_members g))%nat →
     req_function rq = (FUNCTION_MAP (grp_type g)).2).

(** The code of a read: [FUNCTION_MAP[pointType][0]]. *)
Definition read_coded (g : group) (rq : request) : Prop :=
  req_function rq = (FUNCTION_MAP (grp_type g)).1.1.

(** [replies] after the reply for the point [pt] was stored, when the value
    at the point's address is that of [mem]. *)
Definition stored (mem : blocktype → Z → Z) (replies : gmap string Z)
    (pt : ptdesc) : gmap string Z :=
  <[pt_name pt := mem (pt_blocktype pt) (getaddr pt)]> replies.

(** The points the loops go through, in the order they go through them. *)
Definition visited (self : client) (points : list string)
    (keys : list blocktype) : list ptdesc :=
  keys ≫= λ bt, sort_by_addr (group_by_type (slave_points self) points bt).

(** The transport answers every read of the slave [slave] from the memory
    [mem], in every device state of [Holds], and stays in [Holds]. *)
Definition answers_reads {Dev TErr : Type}
    (master_execute : Dev → request → Dev * (TErr + list Z))
    (slave : Z) (Holds : Dev → Prop) (mem : blocktype → Z → Z) : Prop :=
  ∀ d bt addr n,
    Holds d → 0 < n →
    ∃ d', Holds d'
          ∧ master_execute d
              (Request slave (FUNCTION_MAP bt).1.1 addr (quantity_of_x n))
            = (d', inr (mem bt <$> seqZ addr n)).

(** The addresses of the members of a group. *)
Definition group_addrs (g : group) : list Z :=
  (λ m, getaddr (m_pt m)) <$> grp_members g.

(** Four holding registers at the addresses 10, 12, 14 and 25, listed out
    of address order. *)
Definition four_registers : client :=
  Client 1 [Ptdesc "p25" HOLDING_REGISTERS 25;
            Ptdesc "p10" HOLDING_REGISTERS 10;
            Ptdesc "p14" HOLDING_REGISTERS 14;
            Ptdesc "p12" HOLDING_REGISTERS 12].

(** Three holding registers at the addresses 10, 11 and 13. *)
Definition three_registers : client :=
  Client 1 [Ptdesc "p10" HOLDING_REGISTERS 10;
            Ptdesc "p11" HOLDING_REGISTERS 11;
            Ptdesc "p13" HOLDING_REGISTERS 13].

(** A coil and a discrete input. *)
Definition coil_and_input : client :=
  Client 1 [Ptdesc "valve" COILS 3; Ptdesc "alarm" DISCRETE_INPUTS 7].

(** The group holds every requested point of its block type. *)
Definition whole_type (self : client) (points : list string) (g : group)
  : Prop :=
  m_pt <$> grp_members g
  = sort_by_addr (group_by_type (slave_points self) points (grp_type g)).

(** * Properties *)

(** ** Sorting by address *)

Lemma sort_insert_perm (x : ptdesc) (l : list ptdesc) :
  sort_insert x l ≡ₚ x :: l.
Proof.
  induction l as [|y l IH]; simpl; [done|].
  case_bool_decide; [done|].
  rewrite IH. apply Permutation_swap.
Qed.

Lemma sort_by_addr_perm (l : list ptdesc) : sort_by_addr l ≡ₚ l.
Proof.
  induction l as [|x l IH]; simpl; [done|].
  by rewrite sort_insert_perm, IH.
Qed.

Lemma sort_insert_sorted (x : ptdesc) (l : list ptdesc) :
  StronglySorted addr_le l → StronglySorted addr_le (sort_insert x l).
Proof.
  induction 1 as [|y l Hl IH Hy]; simpl.
  - repeat constructor.
  - case_bool_decide as Hxy.
    + constructor; [by constructor|].
      constructor; [done|].
      eapply Forall_impl; [exact Hy|].
      unfold addr_le in *. intros z Hz. lia.
    + constructor; [done|].
      rewrite sort_insert_perm. constructor; [|done].
      unfold addr_le. lia.
Qed.

Lemma sort_by_addr_sorted (l : list ptdesc) :
  StronglySorted addr_le (sort_by_addr l).
Proof.
  induction l as [|x l IH]; simpl; [constructor|].
  by apply sort_insert_sorted.
Qed.

(** ** Grouping by block type *)

Lemma pointsByType_fold (l : list ptdesc) (m : blocktype → list ptdesc)
    (bt : blocktype) :
  foldl (λ m pt, pointsByType_append m (pt_blocktype pt) pt) m l bt
  = m bt ++ filter (λ pt, pt_blocktype pt = bt) l.
Proof.
  revert m. induction l as [|x l IH]; intros m; simpl.
  - by rewrite app_nil_r.
  - rewrite IH. unfold pointsByType_append at 1.
    rewrite filter_cons.
    destruct (decide (bt = pt_blocktype x)) as [->|Hne].
    + rewrite decide_True by done. by rewrite <- app_assoc.
    + rewrite decide_False by done. done.
Qed.

Lemma group_by_type_filter (sp : list ptdesc) (points : list string)
    (bt : blocktype) :
  group_by_type sp points bt
  = filter (λ pt, pt_blocktype pt = bt)
           (filter (λ pt, pt_name pt ∈ points) sp).
Proof. unfold group_by_type. by rewrite pointsByType_fold. Qed.

Lemma elem_of_group_by_type (sp : list ptdesc) (points : list string)
    (bt : blocktype) (pt : ptdesc) :
  pt ∈ sort_by_addr (group_by_type sp points bt)
  ↔ pt ∈ sp ∧ pt_name pt ∈ points ∧ pt_blocktype pt = bt.
Proof.
  rewrite sort_by_addr_perm, group_by_type_filter.
  rewrite !list_elem_of_filter. tauto.
Qed.

(** On an ascending list the comparison of [closeenough] never fails: the
    difference it takes is that of the earlier point minus the later one. *)
Lemma closeenough_ascending (rw : string) (p q : ptdesc) :
  addr_le p q → closeenough rw p q = true.
Proof.
  unfold addr_le, closeenough, MAXDISTANCE. intros H.
  apply bool_decide_eq_true. case_decide; lia.
Qed.

(** ** The groups and calls a request logs *)

Section Logs.

Context {Dev TErr : Type}.
Variable master_execute : Dev → request → Dev * (TErr + list Z).

Abbreviation world := (@world Dev).
Abbreviation exn := (@exn TErr).
Abbreviation M := (@M Dev TErr).

(** A computation that leaves the device and the logs alone. *)
Definition silent {A : Type} (c : M A) : Prop := ∀ w, (c w).1 = w.

Lemma silent_ret {A : Type} (a : A) : silent (ret a).
Proof. done. Qed.

Lemma silent_raise {A : Type} (e : exn) : silent (raise (A:=A) e).
Proof. done. Qed.

Lemma silent_or_raise {A : Type} (e : exn) (o : option A) :
  silent (or_raise e o).
Proof. by destruct o. Qed.

Lemma silent_bind {A B : Type} (c : M A) (k : A → M B) :
  silent c → (∀ a, silent (k a)) → silent (bind c k).
Proof.
  intros Hc Hk w. unfold bind. specialize (Hc w).
  destruct (c w) as [w' [e|a]]; simpl in *; subst; [done|]. apply Hk.
Qed.

Lemma silent_mapM {A B : Type} (f : A → M B) (l : list A) :
  (∀ a, silent (f a)) → silent (mapM_ f l).
Proof.
  intros Hf. induction l as [|a l IH]; simpl; [apply silent_ret|].
  apply silent_bind; [done|]. intros b.
  apply silent_bind; [done|]. intros bs. apply silent_ret.
Qed.

Lemma silent_values_get (values : option (gmap string Z)) (name : string) :
  silent (values_get (Dev:=Dev) (TErr:=TErr) values name).
Proof.
  unfold values_get. destruct values; [apply silent_or_raise|apply silent_raise].
Qed.

(** [keeps I E c]: from a state in [I], [c] ends in [I] when it returns and
    in [E] when it raises. *)
Definition keeps {A : Type} (I E : world → Prop) (c : M A) : Prop :=
  ∀ w, I w →
       match (c w).2 with
       | inr _ => I (c w).1
       | inl _ => E (c w).1
       end.

Lemma keeps_silent {A : Type} (I E : world → Prop) (c : M A) :
  (∀ w, I w → E w) → silent c → keeps I E c.
Proof.
  intros HIE Hc w Hw. rewrite (Hc w). destruct (c w).2; auto.
Qed.

Lemma keeps_bind {A B : Type} (I E : world → Prop) (c : M A) (k : A → M B) :
  keeps I E c → (∀ a, keeps I E (k a)) → keeps I E (bind c k).
Proof.
  intros Hc Hk w Hw. unfold bind. specialize (Hc w Hw).
  destruct (c w) as [w' [e|a]]; simpl in *; [done|]. by apply Hk.
Qed.

Lemma keeps_foldM {A S : Type} (I E : world → Prop) (f : S → A → M S)
    (l : list A) (s : S) :
  (∀ w, I w → E w) → (∀ s a, a ∈ l → keeps I E (f s a)) →
  keeps I E (foldM f s l).
Proof.
  intros HIE. revert s. induction l as [|a l IH]; intros s Hf; simpl.
  - apply keeps_silent; [done|apply silent_ret].
  - apply keeps_bind; [apply Hf; left|].
    intros s'. apply IH. intros s'' b Hb. apply Hf. by right.
Qed.

Lemma bind_inv {A B : Type} (c : M A) (k : A → M B) (w w' : world)
    (res : exn + B) :
  bind c k w = (w', res) →
  (∃ e, c w = (w', inl e) ∧ res = inl e)
  ∨ (∃ w1 a, c w = (w1, inr a) ∧ k a w1 = (w', res)).
Proof.
  unfold bind. destruct (c w) as [w1 [e|a]].
  - intros [= <- <-]. left. eauto.
  - intros H. right. eauto.
Qed.

Lemma silent_inv {A : Type} (c : M A) (w w' : world) (res : exn + A) :
  silent c → c w = (w', res) → w' = w.
Proof. intros Hc H. specialize (Hc w). rewrite H in Hc. done. Qed.

Section Request.

Variable self : client.
Variable rw : string.
Variable values : option (gmap string Z).

Abbreviation send := (send_request master_execute self rw values).
Abbreviation loop := (points_loop master_execute self rw values).
Abbreviation run := (_requestPoints master_execute self rw values).

(** What one pass through the send block adds to the logs: the group, and
    the call made for it unless a value to write was missing. *)
Definition sent {B : Type} (bt : blocktype) (rp : list member)
    (first : member) (w w' : world) (res : exn + B) : Prop :=
  w_groups w' = w_groups w ++ [Group bt (getaddr (m_pt first)) rp]
  ∧ ((∃ rq,
        w_calls w' = w_calls w ++ [rq]
        ∧ req_slave rq = to_config_id self
        ∧ req_function rq = tuple_index (FUNCTION_MAP bt) (command_type rw rp)
        ∧ req_start rq = getaddr (m_pt first)
        ∧ (rw = "r" →
           ∃ final, last rp = Some final
                    ∧ req_payload rq = quantity_of_x (m_offset final + 1)))
     ∨ (rw ≠ "r" ∧ w_calls w' = w_calls w ∧ ∃ e, res = inl e)).

Lemma send_request_logs (bt : blocktype) (rp : list member)
    (replies : gmap string Z) (w w' : world) (first : member)
    (res : exn + gmap string Z) :
  head rp = Some first →
  send bt rp replies w = (w', res) →
  sent bt rp first w w' res.
Proof.
  intros Hhead Hrun. unfold send_request in Hrun. rewrite Hhead in Hrun.
  apply bind_inv in Hrun as [(e & [=] & _)|(? & ? & [= <- <-] & Hrun)].
  apply bind_inv in Hrun as [(e & [=] & _)|(w1 & ? & [= <- _] & Hrun)].
  fold (command_type rw rp) in Hrun.
  destruct (decide (rw = "r")) as [Hr|Hr].
  - destruct (proj2 (last_is_Some rp)) as [final Hlast]; [by destruct rp|].
    rewrite Hlast in Hrun.
    apply bind_inv in Hrun as [(e & [=] & _)|(? & ? & [= <- <-] & Hrun)].
    assert (∀ rq w2 r2, execute master_execute rq
              (World (w_dev w) (w_groups w ++ [Group bt (getaddr (m_pt first)) rp])
                     (w_calls w)) = (w2, r2) →
            w_groups w2 = w_groups w ++ [Group bt (getaddr (m_pt first)) rp]
            ∧ w_calls w2 = w_calls w ++ [rq]) as Hexec.
    { intros rq w2 r2. unfold execute. simpl.
      destruct (master_execute _ _) as [d' r]. by intros [= <- _]. }
    assert (∀ w2 : world,
              w_groups w2
              = w_groups w ++ [Group bt (getaddr (m_pt first)) rp]
              ∧ w_calls w2 = w_calls w ++
                  [Request (to_config_id self)
                     (tuple_index (FUNCTION_MAP bt) (command_type rw rp))
                     (getaddr (m_pt first))
                     (quantity_of_x (m_offset final + 1))] →
              sent bt rp first w w2 res) as Hdone.
    { intros w2 [Hg Hc]. split; [done|]. left. eexists. split; [done|].
      simpl. eauto 10. }
    apply bind_inv in Hrun as [(e & Hex & _)|(w2 & reply & Hex & Hrun)].
    + apply Hdone. by apply Hexec in Hex.
    + apply Hexec in Hex.
      assert (w' = w2) as ->; [|by apply Hdone].
      revert Hrun. apply silent_inv.
      apply silent_bind; [|intros; apply silent_ret].
      apply silent_mapM. intros a. apply silent_bind;
        [apply silent_or_raise|intros; apply silent_ret].
  - apply bind_inv in Hrun as [(e & Hout & ->)|(w2 & out & Hout & Hrun)].
    + apply silent_inv in Hout as ->.
      { split; [done|]. right. eauto. }
      case_bool_decide.
      * apply silent_bind; [|intros; apply silent_ret].
        apply silent_mapM. intros. apply silent_values_get.
      * apply silent_bind; [|intros; apply silent_ret].
        apply silent_values_get.
    + apply silent_inv in Hout as ->.
      2:{ case_bool_decide.
          - apply silent_bind; [|intros; apply silent_ret].
            apply silent_mapM. intros. apply silent_values_get.
          - apply silent_bind; [|intros; apply silent_ret].
            apply silent_values_get. }
      assert (w_groups w'
              = w_groups w ++ [Group bt (getaddr (m_pt first)) rp]
              ∧ w_calls w' = w_calls w ++
                  [Request (to_config_id self)
                     (tuple_index (FUNCTION_MAP bt) (command_type rw rp))
                     (getaddr (m_pt first)) out]) as [Hg Hc].
      { revert Hrun. unfold bind, execute. simpl.
        destruct (master_execute _ _) as [d' [e|reply]];
          by intros [= <- _]. }
      split; [done|]. left. eexists. split; [done|]. simpl.
      repeat split; done.
Qed.

(** One turn of the loop body, on the pending points. *)
Lemma loop_step_members (base : Z) (qs : list ptdesc) (pt : ptdesc) :
  members_of base qs
    ++ [(pt_name pt,
         if decide (length (members_of base qs) = 0%nat) then 0
         else getaddr pt - base,
         pt)]
  = members_of
      (if decide (length (members_of base qs) = 0%nat) then getaddr pt
       else base)
      (qs ++ [pt]).
Proof.
  destruct qs as [|q qs]; simpl.
  - unfold member_of. by rewrite Z.sub_diag.
  - unfold members_of. by rewrite fmap_app.
Qed.

Lemma loop_inv_step (bt : blocktype) (qs : list ptdesc) (base : Z)
    (pt : ptdesc) (rest : list ptdesc) :
  loop_inv bt qs base (pt :: rest) →
  loop_inv bt (qs ++ [pt])
    (if decide (length (members_of base qs) = 0%nat) then getaddr pt
     else base)
    rest.
Proof.
  intros (Hs & Hb & Hh). unfold loop_inv.
  rewrite <- !app_assoc. simpl. split_and!; [done..|].
  destruct qs as [|q0 qs]; simpl; intros q [= <-]; [done|].
  by apply Hh.
Qed.

Lemma loop_inv_flush (bt : blocktype) (qs : list ptdesc) (base base' : Z)
    (pts : list ptdesc) :
  loop_inv bt qs base pts → loop_inv bt [] base' pts.
Proof.
  intros (Hs & Hb & _). split_and!; simpl; [|  |done].
  - by apply StronglySorted_app_1_r in Hs.
  - by apply Forall_app in Hb as [_ ?].
Qed.

(** A pending list that is not empty is a well-formed group in the
    making. *)
Lemma loop_inv_pending (bt : blocktype) (qs : list ptdesc) (base : Z)
    (pts : list ptdesc) (q : ptdesc) (qs' : list ptdesc) :
  loop_inv bt qs base pts → qs = q :: qs' →
  getaddr q = base
  ∧ StronglySorted addr_le (q :: qs')
  ∧ Forall (λ pt, pt_blocktype pt = bt) (q :: qs').
Proof.
  intros (Hs & Hb & Hh) ->. split_and!.
  - by apply Hh.
  - by apply StronglySorted_app_1_l in Hs.
  - by apply Forall_app in Hb as [? _].
Qed.

(** The loop keeps whatever the send block keeps on the groups the loop
    builds. *)
Lemma points_loop_keeps (I E : world → Prop) (bt : blocktype) :
  (∀ w, I w → E w) →
  (∀ q qs replies,
     StronglySorted addr_le (q :: qs) →
     Forall (λ pt, pt_blocktype pt = bt) (q :: qs) →
     keeps I E (send bt (members_of (getaddr q) (q :: qs)) replies)) →
  ∀ pts qs base replies,
    loop_inv bt qs base pts →
    keeps I E (loop bt pts (members_of base qs) base replies).
Proof.
  intros HIE Hsend pts.
  induction pts as [|pt rest IH]; intros qs base replies Hinv.
  - apply keeps_silent; [done|apply silent_ret].
  - simpl. rewrite loop_step_members.
    pose proof (loop_inv_step _ _ _ _ _ Hinv) as Hinv'.
    set (base' := if decide (length (members_of base qs) = 0%nat)
                  then getaddr pt else base) in *.
    assert (keeps I E
              (bind (send bt (members_of base' (qs ++ [pt])) replies)
                    (λ replies', loop bt rest [] base' replies')))
      as Hflush.
    { apply keeps_bind.
      - destruct (qs ++ [pt]) as [|q qs'] eqn:Hq;
          [by destruct qs|].
        destruct (loop_inv_pending _ _ _ _ q qs' Hinv' eq_refl)
          as (<- & ? & ?).
        by apply Hsend.
      - intros replies'. apply (IH [] base' replies').
        by eapply loop_inv_flush. }
    destruct rest as [|nextPoint rest']; [exact Hflush|].
    destruct (negb (closeenough rw pt nextPoint)); [exact Hflush|].
    by apply IH.
Qed.

(** The same for the whole request. *)
Lemma requestPoints_keeps (I E : world → Prop) (points : points_arg) :
  (∀ w, I w → E w) →
  (∀ bt q qs replies,
     StronglySorted addr_le (q :: qs) →
     Forall (λ pt, pt_blocktype pt = bt) (q :: qs) →
     keeps I E (send bt (members_of (getaddr q) (q :: qs)) replies)) →
  keeps I E (run points).
Proof.
  intros HIE Hsend. unfold _requestPoints.
  destruct (bool_decide (rw ≠ "r") && bool_decide (rw ≠ "w")).
  { apply keeps_silent; [done|apply silent_raise]. }
  apply keeps_bind.
  - apply keeps_foldM; [done|].
    intros [base replies] bt _.
    apply (points_loop_keeps I E bt HIE (Hsend bt) _ [] base replies).
    split_and!; simpl; [apply sort_by_addr_sorted| |done].
    apply Forall_forall. intros pt Hpt.
    by apply elem_of_group_by_type in Hpt as (_ & _ & ?).
  - intros final. apply keeps_silent; [done|].
    case_decide; [|apply silent_ret].
    apply silent_bind; [|intros; apply silent_ret].
    apply silent_mapM. intros. apply silent_or_raise.
Qed.

(** *** Three invariants of the logs *)

Definition groups_wf (w : world) : Prop := Forall well_formed (w_groups w).

Definition calls_read (w : world) : Prop :=
  Forall2 (read_call self) (w_groups w) (w_calls w).

Definition calls_coded (w : world) : Prop :=
  Forall2 (call_for rw) (w_groups w) (w_calls w).

(** After an exception the last group may have no call. *)
Definition calls_coded_upto (w : world) : Prop :=
  Forall2 (call_for rw) (take (length (w_calls w)) (w_groups w)) (w_calls w).

Lemma calls_coded_weaken (w : world) : calls_coded w → calls_coded_upto w.
Proof.
  unfold calls_coded, calls_coded_upto. intros H.
  rewrite take_ge; [done|]. apply Forall2_length in H. lia.
Qed.

Lemma send_keeps_wf (bt : blocktype) (q : ptdesc) (qs : list ptdesc)
    (replies : gmap string Z) :
  StronglySorted addr_le (q :: qs) →
  Forall (λ pt, pt_blocktype pt = bt) (q :: qs) →
  keeps groups_wf groups_wf
        (send bt (members_of (getaddr q) (q :: qs)) replies).
Proof.
  intros Hs Hb w Hw.
  destruct (send _ _ _ w) as [w' res] eqn:Hrun.
  apply (send_request_logs _ _ _ _ _ (member_of (getaddr q) q)) in Hrun
    as [Hg _]; [|done].
  assert (groups_wf w') as Hw'.
  { unfold groups_wf. rewrite Hg. apply Forall_app. split; [done|].
    constructor; [|done]. by exists q, qs. }
  simpl. by destruct res.
Qed.

Lemma send_keeps_read (bt : blocktype) (rp : list member) (first : member)
    (replies : gmap string Z) :
  rw = "r" → head rp = Some first →
  keeps calls_read calls_read (send bt rp replies).
Proof.
  intros Hr Hhead w Hw.
  destruct (send _ _ _ w) as [w' res] eqn:Hrun.
  apply (send_request_logs _ _ _ _ _ first) in Hrun
    as [Hg [(rq & Hc & Hslave & Hf & Hstart & Hq)|(? & _)]]; [|done..].
  destruct (Hq Hr) as (final & Hlast & Hpay).
  assert (calls_read w') as Hw'.
  { unfold calls_read. rewrite Hg, Hc. apply Forall2_app; [done|].
    constructor; [|done]. exists first, final. simpl.
    rewrite Hf. unfold command_type. rewrite decide_True by done. done. }
  simpl. by destruct res.
Qed.

Lemma send_keeps_coded (bt : blocktype) (rp : list member) (first : member)
    (replies : gmap string Z) :
  head rp = Some first →
  keeps calls_coded calls_coded_upto (send bt rp replies).
Proof.
  intros Hhead w Hw.
  destruct (send _ _ _ w) as [w' res] eqn:Hrun.
  apply (send_request_logs _ _ _ _ _ first) in Hrun
    as [Hg [(rq & Hc & _ & Hf & _)|(_ & Hc & e & ->)]]; [| |done].
  - assert (calls_coded w') as Hw'.
    { unfold calls_coded. rewrite Hg, Hc. apply Forall2_app; [done|].
      by constructor. }
    simpl. destruct res; [by apply calls_coded_weaken|done].
  - simpl. unfold calls_coded_upto. rewrite Hg, Hc.
    pose proof (Forall2_length _ _ _ Hw) as Hlen.
    rewrite <- Hlen, take_app_length. done.
Qed.

Lemma requestPoints_wf (points : points_arg) :
  keeps groups_wf groups_wf (run points).
Proof.
  apply requestPoints_keeps; [done|]. intros. by apply send_keeps_wf.
Qed.

Lemma requestPoints_read (points : points_arg) :
  rw = "r" → keeps calls_read calls_read (run points).
Proof.
  intros Hr. apply requestPoints_keeps; [done|]. intros.
  by apply (send_keeps_read _ _ (member_of (getaddr q) q)).
Qed.

Lemma requestPoints_coded (points : points_arg) :
  keeps calls_coded calls_coded_upto (run points).
Proof.
  apply requestPoints_keeps; [apply calls_coded_weaken|]. intros.
  by apply (send_keeps_coded _ _ (member_of (getaddr q) q)).
Qed.

End Request.

(** What holds of the world a computation ends in, whatever the outcome. *)
Lemma keeps_end {A : Type} (I E : world → Prop) (c : M A) (w : world) :
  (∀ w, I w → E w) → keeps I E c → I w → E (c w).1.
Proof.
  intros HIE Hc Hw. specialize (Hc w Hw). destruct (c w).2; auto.
Qed.

Lemma writePoints_keeps (I E : world → Prop) (self : client)
    (pointsvalues : pointsvalues_arg) :
  (∀ w, I w → E w) →
  (∀ values points,
     keeps I E (_requestPoints master_execute self "w" values points)) →
  keeps I E (writePoints master_execute self pointsvalues).
Proof.
  intros HIE Hrun. unfold writePoints. apply keeps_bind; [|by intros].
  apply keeps_silent; [done|].
  destruct pointsvalues; [apply silent_ret|].
  case_decide; [apply silent_raise|apply silent_ret].
Qed.

End Logs.

(** ** What a well-formed group gives *)

Lemma well_formed_single_type (g : group) : well_formed g → single_type g.
Proof.
  intros (q & qs & Hm & _ & _ & Hb). unfold single_type. rewrite Hm.
  split; [done|]. unfold members_of. apply Forall_fmap.
  eapply Forall_impl; [exact Hb|]. done.
Qed.

Lemma well_formed_offsets (g : group) : well_formed g → offsets_from_start g.
Proof.
  intros (q & qs & Hm & Hq & Hs & _). unfold offsets_from_start.
  rewrite Hm. split_and!.
  - exists (member_of (grp_start g) q). done.
  - unfold members_of. apply Forall_fmap, Forall_forall.
    intros p Hp. simpl. unfold m_offset, m_pt, member_of. simpl.
    split; [done|].
    apply StronglySorted_cons in Hs as [Hle _].
    apply elem_of_cons in Hp as [->|Hp]; [lia|].
    rewrite Forall_forall in Hle. specialize (Hle p Hp).
    unfold addr_le in Hle. lia.
  - unfold members_of. rewrite <- list_fmap_compose.
    eapply StronglySorted_fmap; [|exact Hs].
    intros x y Hxy. unfold addr_le in Hxy. simpl.
    unfold m_offset, member_of. simpl. lia.
Qed.

Lemma call_for_write_sized (g : group) (rq : request) :
  call_for "w" g rq → sized_call g rq.
Proof.
  unfold call_for, command_type, sized_call. intros ->.
  rewrite decide_False by done.
  case_bool_decide; simpl; split; intros; first [done|lia].
Qed.

Lemma call_for_read_coded (g : group) (rq : request) :
  call_for "r" g rq → read_coded g rq.
Proof.
  unfold call_for, command_type, read_coded. intros ->.
  by rewrite decide_True by done.
Qed.

(** * The claims *)

Section Claims.

Context {Dev TErr : Type}.
Variable master_execute : Dev → request → Dev * (TErr + list Z).

(** A read leaves as many calls as groups, each the read of its group. *)
Lemma readPoints_calls_read (self : client) (points : points_arg) (d : Dev) :
  calls_read self (readPoints master_execute self points (start d)).1.
Proof.
  unfold readPoints.
  apply (keeps_end (calls_read self) (calls_read self)); [done| |].
  - by apply requestPoints_read.
  - constructor.
Qed.

(** C6: for every group a read request executes, exactly one call is made to
    the transport, in the order of the groups; it carries the slave address
    and the read code of the group's block type, its start address is the
    address of the group's first member and its quantity is the offset of
    the group's last member plus 1.  This holds of the logs whatever the
    transport answers. *)
Theorem read_group_one_call (self : client) (points : points_arg) (d : Dev) :
  let w' := (readPoints master_execute self points (start d)).1 in
  Forall2 (read_call self) (w_groups w') (w_calls w').
Proof. simpl. apply readPoints_calls_read. Qed.

(** C7, as amended: a write issues a group of one member with the
    single-item write code of its block type and a group of two or more
    members with the multi-item write code (a group whose values are missing
    is the last one and has no call); a read issues every group, whatever
    its size, with the read code of its block type. *)
Theorem write_sized_read_coded (self : client) (points : points_arg)
    (pointsvalues : pointsvalues_arg) (d : Dev) :
  let ww := (writePoints master_execute self pointsvalues (start d)).1 in
  let wr := (readPoints master_execute self points (start d)).1 in
  Forall2 sized_call (take (length (w_calls ww)) (w_groups ww)) (w_calls ww)
  ∧ Forall2 read_coded (w_groups wr) (w_calls wr).
Proof.
  simpl. split.
  - eapply Forall2_impl; [|apply call_for_write_sized].
    apply (keeps_end (calls_coded "w") (calls_coded_upto "w"));
      [apply calls_coded_weaken| |constructor].
    apply writePoints_keeps; [apply calls_coded_weaken|].
    intros. apply requestPoints_coded.
  - eapply Forall2_impl; [|apply call_for_read_coded].
    unfold readPoints.
    assert (calls_coded_upto "r"
              ((_requestPoints master_execute self "r" None points
                  (start d)).1)) as H.
    { apply (keeps_end (calls_coded "r") (calls_coded_upto "r"));
        [apply calls_coded_weaken|apply requestPoints_coded|constructor]. }
    unfold calls_coded_upto in H.
    pose proof (Forall2_length _ _ _ (readPoints_calls_read self points d))
      as Hlen.
    rewrite take_ge in H; [done|]. unfold readPoints in Hlen. lia.
Qed.

(** Every group a read or a write logs is well formed. *)
Lemma readPoints_wf (self : client) (points : points_arg) (d : Dev) :
  Forall well_formed
         (w_groups (readPoints master_execute self points (start d)).1).
Proof.
  unfold readPoints.
  apply (keeps_end groups_wf groups_wf); [done| |constructor].
  apply requestPoints_wf.
Qed.

Lemma writePoints_wf (self : client) (pointsvalues : pointsvalues_arg)
    (d : Dev) :
  Forall well_formed
         (w_groups (writePoints master_execute self pointsvalues (start d)).1).
Proof.
  apply (keeps_end groups_wf groups_wf); [done| |constructor].
  apply writePoints_keeps; [done|]. intros. apply requestPoints_wf.
Qed.

(** C8: every group produced by a [readPoints] or a [writePoints] call has
    members, and all of them are of the group's one block type, whatever
    the points requested. *)
Theorem groups_single_type (self : client) (points : points_arg)
    (pointsvalues : pointsvalues_arg) (d : Dev) :
  Forall single_type
         (w_groups (readPoints master_execute self points (start d)).1)
  ∧ Forall single_type
      (w_groups (writePoints master_execute self pointsvalues (start d)).1).
Proof.
  split.
  - eapply Forall_impl; [apply readPoints_wf|].
    apply well_formed_single_type.
  - eapply Forall_impl; [apply writePoints_wf|].
    apply well_formed_single_type.
Qed.

(** C9: in every group produced by a [readPoints] or a [writePoints] call
    the start address is the address of the first member, the offset
    recorded for a member is its address minus the start address, and the
    offsets, in member order, are not negative and do not decrease. *)
Theorem groups_offsets_from_start (self : client) (points : points_arg)
    (pointsvalues : pointsvalues_arg) (d : Dev) :
  Forall offsets_from_start
         (w_groups (readPoints master_execute self points (start d)).1)
  ∧ Forall offsets_from_start
      (w_groups (writePoints master_execute self pointsvalues (start d)).1).
Proof.
  split.
  - eapply Forall_impl; [apply readPoints_wf|].
    apply well_formed_offsets.
  - eapply Forall_impl; [apply writePoints_wf|].
    apply well_formed_offsets.
Qed.

End Claims.

(** ** The code on concrete requests, against the stub slave *)

(** C1 (the code departs from the claim): a read of the points at 10, 12, 14
    and 25 of one block type, with [MAXDISTANCE = 5], makes one group of the
    four points and one call for 16 registers from address 10; the gap of 11
    between 14 and 25 does not start a second group. *)
Theorem read_10_12_14_25_one_group :
  let w' := (readPoints Stub.stub_execute four_registers
               (PointNames ["p10"; "p12"; "p14"; "p25"])
               (start Stub.mem_addr)).1 in
  MAXDISTANCE = 5
  ∧ group_addrs <$> w_groups w' = [[10; 12; 14; 25]]
  ∧ w_calls w'
    = [Request 1 (Some READ_HOLDING_REGISTERS) 10 (quantity_of_x 16)].
Proof. vm_compute. done. Qed.

(** C2 (the code departs from the claim): a write to the points at 10, 11
    and 13 of one block type makes one group of the three points and one
    multi-item call from address 10 with the three values; the value meant
    for address 13 lands on address 12, and address 13 is left as it was. *)
Theorem write_10_11_13_one_group :
  let r := writePoints Stub.stub_execute three_registers
             (PointsValues [("p10", 101); ("p11", 102); ("p13", 103)])
             (start Stub.mem_addr) in
  group_addrs <$> w_groups r.1 = [[10; 11; 13]]
  ∧ w_calls r.1
    = [Request 1 (Some WRITE_MULTIPLE_REGISTERS) 10
               (output_values [101; 102; 103])]
  ∧ r.2 = inr None
  ∧ w_dev r.1 HOLDING_REGISTERS 12 = 103
  ∧ w_dev r.1 HOLDING_REGISTERS 13 = 13.
Proof. vm_compute. done. Qed.

(** C4 (the code departs from the claim): a write to a coil and to a
    discrete input first issues the write of the coil, then calls the
    transport for the discrete input without a function code; what the
    caller gets is the transport's own exception, after one write was
    carried out. *)
Theorem write_read_only_reaches_transport :
  let r := writePoints Stub.stub_execute coil_and_input
             (PointsValues [("valve", 1); ("alarm", 1)])
             (start Stub.mem_addr) in
  FUNCTION_MAP DISCRETE_INPUTS = (Some READ_DISCRETE_INPUTS, None, None)
  ∧ w_calls r.1
    = [Request 1 (Some WRITE_SINGLE_COIL) 3 (output_value 1);
       Request 1 None 7 (output_value 1)]
  ∧ r.2 = inl (TransportError Stub.ModbusInvalidRequestError)
  ∧ w_dev r.1 COILS 3 = 1.
Proof. vm_compute. done. Qed.

(** C5 (the code departs from the claim): a write to a name that is not in
    the points list returns [None] and calls the transport for the other
    names only; a read of such a name issues the reads of the other names
    and then raises [KeyError]. *)
Theorem unknown_name_write_silent_read_keyerror :
  let rw := writePoints Stub.stub_execute coil_and_input
              (PointsValues [("ghost", 1); ("valve", 0)])
              (start Stub.mem_addr) in
  let rr := readPoints Stub.stub_execute coil_and_input
              (PointNames ["valve"; "ghost"]) (start Stub.mem_addr) in
  rw.2 = inr None
  ∧ w_calls rw.1 = [Request 1 (Some WRITE_SINGLE_COIL) 3 (output_value 0)]
  ∧ rr.2 = inl (KeyError "ghost")
  ∧ w_calls rr.1 = [Request 1 (Some READ_COILS) 3 (quantity_of_x 1)].
Proof. vm_compute. done. Qed.

(** C7, as the claim states it, fails on a read: the group of the one coil
    is issued with [READ_COILS], which is not the single-item code
    [WRITE_SINGLE_COIL] of the block type. *)
Lemma read_one_coil_not_sized :
  let w' := (readPoints Stub.stub_execute coil_and_input
               (PointName "valve") (start Stub.mem_addr)).1 in
  ¬ Forall2 sized_call (w_groups w') (w_calls w').
Proof.
  vm_compute. intros H. inversion H as [|g rq gs rqs [H1 _] _]; subst.
  specialize (H1 eq_refl). discriminate H1.
Qed.

(** ** What a read returns when the transport answers from a memory *)

Lemma sorted_last (l : list ptdesc) (final p : ptdesc) :
  StronglySorted addr_le l → last l = Some final → p ∈ l → addr_le p final.
Proof.
  intros Hs Hlast Hp. apply last_Some in Hlast as [l' ->].
  apply elem_of_app in Hp as [Hp|Hp].
  - eapply StronglySorted_app_1_elem_of; [exact Hs|exact Hp|].
    apply list_elem_of_singleton. done.
  - apply list_elem_of_singleton in Hp as ->. unfold addr_le. lia.
Qed.

Lemma py_index_block (mem : Z → Z) (base n off : Z) :
  0 ≤ off < n → py_index (mem <$> seqZ base n) off = Some (mem (base + off)).
Proof.
  intros Hoff. unfold py_index. rewrite bool_decide_eq_true_2 by lia.
  rewrite list_lookup_fmap, lookup_seqZ_lt by lia.
  simpl. do 2 f_equal. lia.
Qed.

Lemma stored_other (mem : blocktype → Z → Z) (l : list ptdesc)
    (replies : gmap string Z) (name : string) :
  (∀ q, q ∈ l → pt_name q ≠ name) →
  foldl (stored mem) replies l !! name = replies !! name.
Proof.
  revert replies. induction l as [|x l IH]; intros replies Hl; [done|].
  simpl. rewrite IH.
  - unfold stored. apply lookup_insert_ne. apply Hl. left.
  - intros q Hq. apply Hl. by right.
Qed.

(** With one point per name, the value stored under a visited point's name
    is the one at its own address. *)
Lemma stored_lookup (mem : blocktype → Z → Z) (l : list ptdesc)
    (replies : gmap string Z) (pt : ptdesc) :
  (∀ p q, p ∈ l → q ∈ l → pt_name p = pt_name q → p = q) →
  pt ∈ l →
  foldl (stored mem) replies l !! pt_name pt
  = Some (mem (pt_blocktype pt) (getaddr pt)).
Proof.
  revert replies. induction l as [|x l IH]; intros replies Hinj Hpt.
  - by apply elem_of_nil in Hpt.
  - simpl. destruct (decide (pt ∈ l)) as [Hin|Hnin].
    + apply IH; [|done]. intros p q Hp Hq. apply Hinj; by right.
    + apply elem_of_cons in Hpt as [->|?]; [|done].
      rewrite stored_other.
      * unfold stored. apply lookup_insert_eq.
      * intros q Hq Hname. apply Hnin.
        rewrite <- (Hinj q x); [done|by right|left|done].
Qed.

Lemma names_inj (l : list ptdesc) (p q : ptdesc) :
  NoDup (pt_name <$> l) → p ∈ l → q ∈ l → pt_name p = pt_name q → p = q.
Proof.
  induction l as [|x l IH]; intros Hnd Hp Hq Hname.
  - by apply elem_of_nil in Hp.
  - simpl in Hnd. apply NoDup_cons in Hnd as [Hx Hnd].
    apply elem_of_cons in Hp as [->|Hp]; apply elem_of_cons in Hq as [->|Hq].
    + done.
    + exfalso. apply Hx. rewrite Hname. by apply list_elem_of_fmap_2.
    + exfalso. apply Hx. rewrite <- Hname. by apply list_elem_of_fmap_2.
    + by apply IH.
Qed.

Lemma elem_of_visited (self : client) (points : list string)
    (pt : ptdesc) :
  pt ∈ visited self points pointsByType_keys
  ↔ pt ∈ slave_points self ∧ pt_name pt ∈ points.
Proof.
  unfold visited. rewrite list_elem_of_bind. split.
  - intros (bt & Hpt & _). apply elem_of_group_by_type in Hpt. tauto.
  - intros [Hsp Hname]. exists (pt_blocktype pt). split.
    + by apply elem_of_group_by_type.
    + unfold pointsByType_keys. destruct (pt_blocktype pt); set_solver.
Qed.

Section Reads.

Context {Dev TErr : Type}.
Variable master_execute : Dev → request → Dev * (TErr + list Z).
Variable self : client.
Variable Holds : Dev → Prop.
Variable mem : blocktype → Z → Z.

Hypothesis Hreads : answers_reads master_execute (to_config_id self) Holds mem.

Abbreviation world := (@world Dev).
Abbreviation M := (@M Dev TErr).

Lemma mapM_pure_ok {A B : Type} (f : A → M B) (g : A → B) (l : list A)
    (w : world) :
  (∀ a, a ∈ l → f a w = (w, inr (g a))) →
  mapM_ f l w = (w, inr (g <$> l)).
Proof.
  induction l as [|a l IH]; intros Hf; [done|].
  simpl. unfold bind. rewrite Hf by left.
  rewrite IH; [done|]. intros b Hb. apply Hf. by right.
Qed.

(** The send block of a read, once the first and the last member are
    known. *)
Lemma send_request_read (bt : blocktype) (rp : list member)
    (replies : gmap string Z) (first final : member) :
  head rp = Some first → last rp = Some final →
  send_request master_execute self "r" None bt rp replies
  = bind (log_group (Group bt (getaddr (m_pt first)) rp))
      (λ _,
        bind (execute master_execute
                (Request (to_config_id self) (FUNCTION_MAP bt).1.1
                         (getaddr (m_pt first))
                         (quantity_of_x (m_offset final + 1))))
          (λ reply,
            bind (mapM_ (λ t,
                           bind (or_raise IndexError
                                   (py_index reply (m_offset t)))
                                (λ v, ret (m_name t, v)))
                        rp)
              (λ generator, ret (replies_update replies generator)))).
Proof.
  intros Hh Hl. unfold send_request. rewrite Hh, Hl.
  destruct (decide ("r" = "r")); done.
Qed.

Lemma send_reads (bt : blocktype) (q : ptdesc) (qs : list ptdesc)
    (replies : gmap string Z) (w : world) :
  StronglySorted addr_le (q :: qs) →
  Forall (λ pt, pt_blocktype pt = bt) (q :: qs) →
  Holds (w_dev w) →
  ∃ w', Holds (w_dev w')
        ∧ send_request master_execute self "r" None bt
            (members_of (getaddr q) (q :: qs)) replies w
          = (w', inr (foldl (stored mem) replies (q :: qs))).
Proof.
  intros Hs Hb Hw.
  destruct (proj2 (last_is_Some (q :: qs))) as [final Hlast]; [done|].
  assert (∀ p, p ∈ q :: qs → getaddr q ≤ getaddr p ≤ getaddr final)
    as Hrange.
  { intros p Hp. split.
    - apply StronglySorted_cons in Hs as [Hle _].
      apply elem_of_cons in Hp as [->|Hp]; [lia|].
      rewrite Forall_forall in Hle. by apply Hle.
    - by eapply sorted_last. }
  assert (0 < getaddr final - getaddr q + 1) as Hn.
  { specialize (Hrange q ltac:(left)). lia. }
  destruct (Hreads (w_dev w) bt (getaddr q) _ Hw Hn) as (d' & Hd' & Hex).
  assert (head (members_of (getaddr q) (q :: qs))
          = Some (member_of (getaddr q) q)) as Hh by done.
  assert (last (members_of (getaddr q) (q :: qs))
          = Some (member_of (getaddr q) final)) as Hl.
  { unfold members_of. by rewrite fmap_last, Hlast. }
  eexists. split; [|].
  2:{ rewrite (send_request_read _ _ _ _ _ Hh Hl).
      unfold bind at 1. unfold log_group at 1.
      unfold bind at 1. unfold execute at 1. simpl w_dev.
      unfold m_pt, m_offset, member_of at 1 2. simpl fst. simpl snd.
      rewrite Hex.
      unfold bind at 1.
      erewrite (mapM_pure_ok _
                  (λ t, (m_name t,
                         mem (pt_blocktype (m_pt t)) (getaddr (m_pt t))))).
      - unfold ret. f_equal. f_equal.
        unfold replies_update, members_of.
        rewrite !foldl_fmap. done.
      - intros t Ht. unfold members_of in Ht.
        apply list_elem_of_fmap in Ht as (p & -> & Hp).
        unfold bind.
        replace ((member_of (getaddr q) p).1.2)
          with (getaddr p - getaddr q) by done.
        rewrite py_index_block by (specialize (Hrange p Hp); lia).
        simpl. unfold ret. do 3 f_equal.
        rewrite Forall_forall in Hb. rewrite (Hb p Hp).
        f_equal. lia. }
  done.
Qed.

(** The loop over one block type stores the value of every point it goes
    through. *)
Lemma points_loop_reads (bt : blocktype) (pts : list ptdesc) :
  ∀ (qs : list ptdesc) (base : Z) (replies : gmap string Z) (w : world),
    loop_inv bt qs base pts → (pts = [] → qs = []) → Holds (w_dev w) →
    ∃ w' base',
      Holds (w_dev w')
      ∧ points_loop master_execute self "r" None bt pts
                    (members_of base qs) base replies w
        = (w', inr (base', foldl (stored mem) replies (qs ++ pts))).
Proof.
  induction pts as [|pt rest IH]; intros qs base replies w Hinv Hnil Hw.
  - rewrite (Hnil eq_refl). by exists w, base.
  - simpl points_loop. rewrite loop_step_members.
    pose proof (loop_inv_step _ _ _ _ _ Hinv) as Hinv'.
    set (base' := if decide (length (members_of base qs) = 0%nat)
                  then getaddr pt else base) in *.
    assert (∃ w' base'',
              Holds (w_dev w')
              ∧ bind (send_request master_execute self "r" None bt
                        (members_of base' (qs ++ [pt])) replies)
                     (λ replies',
                        points_loop master_execute self "r" None bt rest []
                                    base' replies') w
                = (w', inr (base'',
                            foldl (stored mem) replies (qs ++ pt :: rest))))
      as Hflush.
    { destruct (qs ++ [pt]) as [|q qs'] eqn:Hq; [by destruct qs|].
      destruct (loop_inv_pending _ _ _ _ q qs' Hinv' eq_refl)
        as (Hbase & Hs & Hb).
      rewrite <- Hbase.
      destruct (send_reads bt q qs' replies w Hs Hb Hw)
        as (w1 & Hw1 & Hsend).
      unfold bind. rewrite Hsend.
      destruct (IH [] (getaddr q) (foldl (stored mem) replies (q :: qs')) w1)
        as (w2 & base2 & Hw2 & Hloop);
        [by eapply loop_inv_flush|done|done|].
      exists w2, base2. split; [done|].
      change (members_of (getaddr q) []) with (@nil member) in Hloop.
      rewrite Hloop. do 3 f_equal.
      rewrite <- foldl_app, <- Hq, <- app_assoc. done. }
    destruct rest as [|nextPoint rest']; [exact Hflush|].
    destruct (negb (closeenough "r" pt nextPoint)); [exact Hflush|].
    destruct (IH (qs ++ [pt]) base' replies w Hinv' ltac:(done) Hw)
      as (w2 & base2 & Hw2 & Hloop).
    exists w2, base2. split; [done|].
    rewrite Hloop. by rewrite <- app_assoc.
Qed.

Lemma foldM_reads (points : list string) (keys : list blocktype) :
  ∀ (base : Z) (replies : gmap string Z) (w : world),
    Holds (w_dev w) →
    ∃ w' base',
      Holds (w_dev w')
      ∧ foldM (λ '(reqBaseAddr, replies) pointType,
                 points_loop master_execute self "r" None pointType
                   (sort_by_addr
                      (group_by_type (slave_points self) points pointType))
                   [] reqBaseAddr replies)
              (base, replies) keys w
        = (w', inr (base',
                    foldl (stored mem) replies (visited self points keys))).
Proof.
  induction keys as [|bt keys IH]; intros base replies w Hw.
  - by exists w, base.
  - simpl foldM.
    destruct (points_loop_reads bt
                (sort_by_addr (group_by_type (slave_points self) points bt))
                [] base replies w) as (w1 & base1 & Hw1 & Hloop);
      [|done|done|].
    { split_and!; simpl; [apply sort_by_addr_sorted| |done].
      apply Forall_forall. intros pt Hpt.
      by apply elem_of_group_by_type in Hpt as (_ & _ & ?). }
    change (members_of base []) with (@nil member) in Hloop.
    unfold bind at 1. rewrite Hloop. simpl app.
    destruct (IH base1
                (foldl (stored mem) replies
                   (sort_by_addr
                      (group_by_type (slave_points self) points bt))) w1 Hw1)
      as (w2 & base2 & Hw2 & Hrest).
    exists w2, base2. split; [done|].
    rewrite Hrest. do 3 f_equal.
    unfold visited. simpl. by rewrite foldl_app.
Qed.

(** A read of names that all resolve returns, name by name, what [replies]
    holds, and [replies] holds for every requested point the value at its
    address. *)
Lemma readPoints_resolved (points : points_arg) (d : Dev) :
  let names :=
    match points with
    | PointName name => [name]
    | PointNames names => names
    end in
  Holds d →
  NoDup (pt_name <$> slave_points self) →
  (∀ name, name ∈ names → name ∈ pt_name <$> slave_points self) →
  ∃ (w' : world) (replies : gmap string Z),
    readPoints master_execute self points (start d)
    = (w', inr (Some ((λ name, replies !!! name) <$> names)))
    ∧ ∀ pt, pt ∈ slave_points self → pt_name pt ∈ names →
            replies !! pt_name pt
            = Some (mem (pt_blocktype pt) (getaddr pt)).
Proof.
  intros names Hd Hnd Hres.
  destruct (foldM_reads names pointsByType_keys 0 ∅ (start d) Hd)
    as (w1 & base1 & Hw1 & Hfold).
  set (replies := foldl (stored mem) ∅ (visited self names pointsByType_keys))
    in *.
  assert (∀ pt, pt ∈ slave_points self → pt_name pt ∈ names →
                replies !! pt_name pt
                = Some (mem (pt_blocktype pt) (getaddr pt))) as Hlook.
  { intros pt Hpt Hname. apply stored_lookup.
    - intros p q Hp Hq. apply elem_of_visited in Hp as [Hp _].
      apply elem_of_visited in Hq as [Hq _]. by apply (names_inj (slave_points self)).
    - by apply elem_of_visited. }
  exists w1, replies. split; [|done].
  unfold readPoints, _requestPoints.
  change (bool_decide ("r" ≠ "r") && bool_decide ("r" ≠ "w")) with false.
  cbv iota. fold names.
  unfold bind at 1. rewrite Hfold. simpl snd. fold replies.
  destruct (decide ("r" = "r")); [|done].
  unfold bind.
  rewrite (mapM_pure_ok _ (λ name, replies !!! name)); [done|].
  intros name Hname.
  destruct (proj1 (list_elem_of_fmap _ _ _) (Hres name Hname))
    as (pt & -> & Hpt).
  rewrite lookup_total_alt, (Hlook pt Hpt Hname). simpl snd.
  by rewrite (Hlook pt Hpt Hname).
Qed.

End Reads.

(** The stub slave answers reads from its memory and reads leave the memory
    as it is. *)
Lemma stub_answers_reads (slave : Z) (mem : Stub.memory) :
  answers_reads Stub.stub_execute slave (λ d, d = mem) mem.
Proof.
  intros d bt addr n -> Hn. exists mem. split; [done|].
  unfold Stub.stub_execute, Stub.read_block.
  destruct bt; simpl; by rewrite bool_decide_eq_true_2 by done.
Qed.

(** C3: when the transport answers reads from a memory, the points list has
    one point per name and every requested name is in it, [readPoints]
    returns a tuple as long as the request whose i-th element is the value
    at the address of the point that the i-th name resolves to, whatever the
    order of the addresses and of the groups; hence every occurrence of a
    name gets the same value. *)
Theorem readPoints_request_order {Dev TErr : Type}
    (master_execute : Dev → request → Dev * (TErr + list Z))
    (self : client) (Holds : Dev → Prop) (mem : blocktype → Z → Z)
    (N : list string) (d : Dev) :
  answers_reads master_execute (to_config_id self) Holds mem →
  Holds d →
  NoDup (pt_name <$> slave_points self) →
  Forall (λ name, name ∈ pt_name <$> slave_points self) N →
  ∃ vs,
    (readPoints master_execute self (PointNames N) (start d)).2
    = inr (Some vs)
    ∧ length vs = length N
    ∧ (∀ i pt, N !! i = Some (pt_name pt) → pt ∈ slave_points self →
               vs !! i = Some (mem (pt_blocktype pt) (getaddr pt)))
    ∧ (∀ i j, N !! i = N !! j → vs !! i = vs !! j).
Proof.
  intros Hreads Hd Hnd Hres.
  destruct (readPoints_resolved master_execute self Holds mem Hreads
              (PointNames N) d Hd Hnd) as (w' & replies & Hrun & Hlook).
  { by apply Forall_forall. }
  eexists. rewrite Hrun. split; [done|]. split_and!.
  - by rewrite length_fmap.
  - intros i pt Hi Hpt. rewrite list_lookup_fmap, Hi. simpl.
    rewrite lookup_total_alt, Hlook; [done..|].
    by eapply list_elem_of_lookup_2.
  - intros i j Hij. by rewrite !list_lookup_fmap, Hij.
Qed.

Lemma readPoints_request_order_witness :
  ∃ vs,
    (readPoints Stub.stub_execute four_registers
       (PointNames ["p25"; "p10"; "p25"; "p12"]) (start Stub.mem_addr)).2
    = inr (Some vs)
    ∧ length vs = 4%nat
    ∧ (∀ i pt, ["p25"; "p10"; "p25"; "p12"] !! i = Some (pt_name pt) →
               pt ∈ slave_points four_registers →
               vs !! i = Some (Stub.mem_addr (pt_blocktype pt) (getaddr pt)))
    ∧ (∀ i j, ["p25"; "p10"; "p25"; "p12"] !! i
              = ["p25"; "p10"; "p25"; "p12"] !! j →
              vs !! i = vs !! j).
Proof.
  apply (readPoints_request_order Stub.stub_execute four_registers
           (λ d, d = Stub.mem_addr) Stub.mem_addr
           ["p25"; "p10"; "p25"; "p12"] Stub.mem_addr).
  - apply stub_answers_reads.
  - reflexivity.
  - apply (bool_decide_unpack _). vm_compute. exact I.
  - apply (bool_decide_unpack _). vm_compute. exact I.
Defined.

(** C10: a bare name given to [readPoints] is treated as the one-element
    sequence of that name, and, when the name resolves (same transport and
    points list as for C3), the call returns the one-element tuple of the
    point's value. *)
Theorem readPoints_bare_name {Dev TErr : Type}
    (master_execute : Dev → request → Dev * (TErr + list Z))
    (self : client) (Holds : Dev → Prop) (mem : blocktype → Z → Z)
    (pt : ptdesc) (d : Dev) :
  answers_reads master_execute (to_config_id self) Holds mem →
  Holds d →
  NoDup (pt_name <$> slave_points self) →
  pt ∈ slave_points self →
  readPoints master_execute self (PointName (pt_name pt)) (start d)
  = readPoints master_execute self (PointNames [pt_name pt]) (start d)
  ∧ (readPoints master_execute self (PointName (pt_name pt)) (start d)).2
    = inr (Some [mem (pt_blocktype pt) (getaddr pt)]).
Proof.
  intros Hreads Hd Hnd Hpt. split; [done|].
  destruct (readPoints_resolved master_execute self Holds mem Hreads
              (PointName (pt_name pt)) d Hd Hnd) as (w' & replies & Hrun & Hlook).
  { intros name Hname. apply list_elem_of_singleton in Hname as ->.
    by apply list_elem_of_fmap_2. }
  rewrite Hrun. simpl.
  rewrite lookup_total_alt, Hlook; [done..|]. set_solver.
Qed.

Lemma readPoints_bare_name_witness :
  readPoints Stub.stub_execute coil_and_input (PointName "alarm")
             (start Stub.mem_addr)
  = readPoints Stub.stub_execute coil_and_input (PointNames ["alarm"])
               (start Stub.mem_addr)
  ∧ (readPoints Stub.stub_execute coil_and_input (PointName "alarm")
                (start Stub.mem_addr)).2
    = inr (Some [7]).
Proof.
  apply (readPoints_bare_name Stub.stub_execute coil_and_input
           (λ d, d = Stub.mem_addr) Stub.mem_addr
           (Ptdesc "alarm" DISCRETE_INPUTS 7) Stub.mem_addr).
  - apply stub_answers_reads.
  - reflexivity.
  - apply (bool_decide_unpack _). vm_compute. exact I.
  - apply (bool_decide_unpack _). vm_compute. exact I.
Defined.

(** The same read, evaluated: the values come back in the order of the
    request, not in that of the addresses. *)
Example read_out_of_address_order :
  (readPoints Stub.stub_execute four_registers
     (PointNames ["p25"; "p10"; "p25"; "p12"]) (start Stub.mem_addr)).2
  = inr (Some [25; 10; 25; 12]).
Proof. vm_compute. done. Qed.

(** ** One group per block type

    Because [closeenough] never fails on the sorted list, the send block is
    only reached at the last point of a block type: whatever the gaps, a
    request makes at most one group per block type, of all the requested
    points of that type. *)

Section Merged.

Context {Dev TErr : Type}.
Variable master_execute : Dev → request → Dev * (TErr + list Z).
Variable self : client.
Variable rw : string.
Variable values : option (gmap string Z).

Abbreviation world := (@world Dev).
Abbreviation M := (@M Dev TErr).

Lemma members_of_points (base : Z) (qs : list ptdesc) :
  m_pt <$> members_of base qs = qs.
Proof.
  unfold members_of.
  induction qs as [|q qs IH]; [done|]. rewrite !fmap_cons, IH. done.
Qed.

Lemma points_loop_one_group (bt : blocktype) (pts : list ptdesc) :
  ∀ (qs : list ptdesc) (base : Z) (replies : gmap string Z) (w : world),
    loop_inv bt qs base pts → (pts = [] → qs = []) →
    ∃ gs,
      w_groups (points_loop master_execute self rw values bt pts
                  (members_of base qs) base replies w).1
      = w_groups w ++ gs
      ∧ (gs = []
         ∨ ∃ g, gs = [g] ∧ grp_type g = bt
                ∧ m_pt <$> grp_members g = qs ++ pts).
Proof.
  induction pts as [|pt rest IH]; intros qs base replies w Hinv Hnil.
  - exists []. rewrite app_nil_r. split; [done|by left].
  - simpl points_loop. rewrite loop_step_members.
    pose proof (loop_inv_step _ _ _ _ _ Hinv) as Hinv'.
    set (base' := if decide (length (members_of base qs) = 0%nat)
                  then getaddr pt else base) in *.
    destruct rest as [|nextPoint rest'].
    + destruct (qs ++ [pt]) as [|q qs'] eqn:Hq; [by destruct qs|].
      unfold bind.
      destruct (send_request master_execute self rw values bt
                  (members_of base' (q :: qs')) replies w)
        as [w1 res] eqn:Hsend.
      apply (send_request_logs _ _ _ _ _ _ _ _ _ (member_of base' q))
        in Hsend as [Hg _]; [|done].
      eexists. split.
      * destruct res; simpl; exact Hg.
      * right. eexists. split; [done|]. simpl. split; [done|].
        by rewrite members_of_points.
    + assert (closeenough rw pt nextPoint = true) as ->.
      { apply closeenough_ascending.
        destruct Hinv as (Hs & _ & _).
        apply StronglySorted_app_1_r, StronglySorted_cons in Hs as [Hle _].
        apply Forall_cons in Hle as [? _]. done. }
      simpl negb. cbv iota.
      destruct (IH (qs ++ [pt]) base' replies w Hinv' ltac:(done))
        as (gs & Hgs & Hor).
      exists gs. split; [done|].
      by rewrite <- app_assoc in Hor.
Qed.

Lemma foldM_one_group (points : list string) (keys : list blocktype) :
  ∀ (acc : Z * gmap string Z) (w : world),
    ∃ gs,
      w_groups
        (foldM (λ '(reqBaseAddr, replies) pointType,
                  points_loop master_execute self rw values pointType
                    (sort_by_addr
                       (group_by_type (slave_points self) points pointType))
                    [] reqBaseAddr replies)
               acc keys w).1
      = w_groups w ++ gs
      ∧ grp_type <$> gs `sublist_of` keys
      ∧ Forall (whole_type self points) gs.
Proof.
  induction keys as [|bt keys IH]; intros [base replies] w.
  - exists []. rewrite app_nil_r. split_and!; [done|constructor|constructor].
  - simpl foldM. unfold bind.
    destruct (points_loop_one_group bt
                (sort_by_addr (group_by_type (slave_points self) points bt))
                [] base replies w) as (gs1 & Hgs1 & Hor).
    { split_and!; simpl; [apply sort_by_addr_sorted| |done].
      apply Forall_forall. intros pt Hpt.
      by apply elem_of_group_by_type in Hpt as (_ & _ & ?). }
    { done. }
    change (members_of base []) with (@nil member) in Hgs1.
    assert (grp_type <$> gs1 `sublist_of` [bt]
            ∧ Forall (whole_type self points) gs1) as [Hsub1 Hall1].
    { destruct Hor as [->|(g & -> & Hbt & Hg)].
      - split; [apply sublist_nil_l|constructor].
      - split; [simpl; rewrite Hbt; done|].
        constructor; [|constructor]. unfold whole_type. by rewrite Hbt. }
    destruct (points_loop _ _ _ _ _ _ _ _ _ w) as [w1 [e|acc1]];
      simpl in Hgs1.
    + exists gs1. split_and!; [done| |done].
      rewrite <- (app_nil_r (grp_type <$> gs1)).
      apply (sublist_app _ [bt] [] keys); [done|apply sublist_nil_l].
    + destruct (IH acc1 w1) as (gs2 & Hgs2 & Hsub2 & Hall2).
      exists (gs1 ++ gs2). split_and!.
      * by rewrite Hgs2, Hgs1, <- app_assoc.
      * rewrite fmap_app. by apply (sublist_app _ [bt] _ keys).
      * by apply Forall_app.
Qed.

Lemma bind_silent_world {A B : Type} (c : M A) (k : A → M B) (w : world) :
  (∀ a, silent (k a)) → (bind c k w).1 = (c w).1.
Proof.
  intros Hk. unfold bind. destruct (c w) as [w1 [e|a]]; [done|]. apply Hk.
Qed.

Lemma requestPoints_one_group (points : points_arg) (d : Dev) :
  let names :=
    match points with
    | PointName name => [name]
    | PointNames names => names
    end in
  let w' := (_requestPoints master_execute self rw values points
               (start d)).1 in
  grp_type <$> w_groups w' `sublist_of` pointsByType_keys
  ∧ Forall (whole_type self names) (w_groups w').
Proof.
  intros names. unfold _requestPoints.
  destruct (bool_decide (rw ≠ "r") && bool_decide (rw ≠ "w")).
  { simpl. split; [apply sublist_nil_l|constructor]. }
  fold names. cbv zeta. rewrite bind_silent_world.
  - destruct (foldM_one_group names pointsByType_keys (0, ∅) (start d))
      as (gs & Hgs & Hsub & Hall).
    rewrite Hgs. done.
  - intros final. case_decide; [|apply silent_ret].
    apply silent_bind; [|intros; apply silent_ret].
    apply silent_mapM. intros. apply silent_or_raise.
Qed.

End Merged.

(** * Further properties of [_requestPoints], [readPoints] and [writePoints] *)

(** What the loop over one block type does with the points [pts] of that
    type: nothing when there are none, otherwise one pass through the send
    block with all of them. *)
Definition type_pass {Dev TErr : Type}
    (master_execute : Dev → request → Dev * (TErr + list Z))
    (self : client) (rw : string) (values : option (gmap string Z))
    (bt : blocktype) (pts : list ptdesc) (base : Z)
    (replies : gmap string Z) : M (Z * gmap string Z) :=
  match pts with
  | [] => ret (base, replies)
  | q :: _ =>
      bind (send_request master_execute self rw values bt
              (members_of (getaddr q) pts) replies)
           (λ replies', ret (getaddr q, replies'))
  end.

Section Passes.

Context {Dev TErr : Type}.
Variable master_execute : Dev → request → Dev * (TErr + list Z).
Variable self : client.
Variable rw : string.
Variable values : option (gmap string Z).

Abbreviation world := (@world Dev).
Abbreviation M := (@M Dev TErr).

Lemma points_loop_merged (bt : blocktype) (pts : list ptdesc) :
  ∀ (qs : list ptdesc) (base : Z) (replies : gmap string Z) (w : world)
    (q0 : ptdesc) (l : list ptdesc),
    loop_inv bt qs base pts → pts ≠ [] → qs ++ pts = q0 :: l →
    points_loop master_execute self rw values bt pts (members_of base qs)
                base replies w
    = bind (send_request master_execute self rw values bt
              (members_of (getaddr q0) (q0 :: l)) replies)
           (λ replies', ret (getaddr q0, replies')) w.
Proof.
  induction pts as [|pt rest IH]; intros qs base replies w q0 l Hinv Hne Hq;
    [done|].
  simpl points_loop. rewrite loop_step_members.
  pose proof (loop_inv_step _ _ _ _ _ Hinv) as Hinv'.
  set (base' := if decide (length (members_of base qs) = 0%nat)
                then getaddr pt else base) in *.
  destruct rest as [|nextPoint rest'].
  - destruct (loop_inv_pending _ _ _ _ q0 l Hinv' Hq) as (<- & _ & _).
    rewrite Hq. done.
  - assert (closeenough rw pt nextPoint = true) as ->.
    { apply closeenough_ascending.
      destruct Hinv as (Hs & _ & _).
      apply StronglySorted_app_1_r, StronglySorted_cons in Hs as [Hle _].
      apply Forall_cons in Hle as [? _]. done. }
    simpl negb. cbv iota.
    apply IH; [done|done|]. by rewrite <- app_assoc.
Qed.

(** The iteration for one block type is its [type_pass]. *)
Lemma points_loop_type_pass (points : list string) (bt : blocktype)
    (base : Z) (replies : gmap string Z) (w : world) :
  points_loop master_execute self rw values bt
    (sort_by_addr (group_by_type (slave_points self) points bt)) [] base
    replies w
  = type_pass master_execute self rw values bt
      (sort_by_addr (group_by_type (slave_points self) points bt)) base
      replies w.
Proof.
  destruct (sort_by_addr _) as [|q l] eqn:Hsort; [done|].
  apply (points_loop_merged bt (q :: l) [] base replies w q l);
    [|done|done].
  rewrite <- Hsort. split_and!; simpl; [apply sort_by_addr_sorted| |done].
  apply Forall_forall. intros pt Hpt.
  by apply elem_of_group_by_type in Hpt as (_ & _ & ?).
Qed.

Lemma foldM_ext {A S : Type} (f g : S → A → M S) (l : list A) (s : S)
    (w : world) :
  (∀ s a w, f s a w = g s a w) → foldM f s l w = foldM g s l w.
Proof.
  intros Hfg. revert s w. induction l as [|a l IH]; intros s w; [done|].
  simpl. unfold bind. rewrite Hfg. destruct (g s a w) as [w' [e|s']]; auto.
Qed.

(** The four iterations of a request. *)
Definition passes (points : list string) : M (Z * gmap string Z) :=
  foldM (λ '(reqBaseAddr, replies) pointType,
           type_pass master_execute self rw values pointType
             (sort_by_addr
                (group_by_type (slave_points self) points pointType))
             reqBaseAddr replies)
        (0, ∅) pointsByType_keys.

Lemma requestPoints_passes (points : points_arg) (w : world) :
  let names :=
    match points with
    | PointName name => [name]
    | PointNames names => names
    end in
  _requestPoints master_execute self rw values points w
  = (if bool_decide (rw ≠ "r") && bool_decide (rw ≠ "w") then
       raise (Exception ("Unsupported operation " +:+ rw +:+
                         " for _requestPoints"))
     else
       bind (passes names)
            (λ final,
               if decide (rw = "r") then
                 bind (mapM_ (λ name, or_raise (KeyError name)
                                        (final.2 !! name)) names)
                      (λ result, ret (Some result))
               else ret None)) w.
Proof.
  intros names. unfold _requestPoints. fold names.
  destruct (bool_decide (rw ≠ "r") && bool_decide (rw ≠ "w")); [done|].
  unfold bind, passes.
  erewrite foldM_ext; [done|].
  intros [base replies] bt w0. apply points_loop_type_pass.
Qed.

End Passes.

(** The names a dictionary built from pairs has are names of the pairs. *)
Lemma dict_of_pairs_keys (pairs : list (string * Z)) (name : string) :
  name ∈ (map_to_list (dict_of_pairs pairs)).*1 → name ∈ pairs.*1.
Proof.
  intros Hin. apply list_elem_of_fmap in Hin as ([k v] & -> & Hkv).
  apply elem_of_map_to_list in Hkv. simpl.
  unfold dict_of_pairs in Hkv.
  assert (∀ d : gmap string Z,
            foldl (λ d kv, <[kv.1 := kv.2]> d) d pairs !! k = Some v →
            d !! k = Some v ∨ k ∈ pairs.*1) as Hgen.
  { clear Hkv. induction pairs as [|[k' v'] pairs IH]; intros d Hd.
    - by left.
    - simpl in Hd. apply IH in Hd as [Hd|Hd].
      + destruct (decide (k' = k)) as [->|Hne].
        * right. simpl. left.
        * left. by rewrite lookup_insert_ne in Hd.
      + right. simpl. by right. }
  destruct (Hgen ∅ Hkv) as [Hempty|?]; [|done].
  by rewrite lookup_empty in Hempty.
Qed.

(** X1: a request makes at most one group per block type, in the order of
    [pointsByType_keys], and the group of a block type holds all the
    requested points of that type in ascending order of address, whatever
    the gaps between them. *)
Theorem one_group_per_block_type {Dev TErr : Type}
    (master_execute : Dev → request → Dev * (TErr + list Z))
    (self : client) (N : list string) (pairs : list (string * Z)) (d : Dev) :
  let wr := (readPoints master_execute self (PointNames N) (start d)).1 in
  let ww := (writePoints master_execute self (PointsValues pairs)
               (start d)).1 in
  (grp_type <$> w_groups wr `sublist_of` pointsByType_keys
   ∧ Forall (whole_type self N) (w_groups wr))
  ∧ (grp_type <$> w_groups ww `sublist_of` pointsByType_keys
     ∧ Forall (whole_type self (map_to_list (dict_of_pairs pairs)).*1)
              (w_groups ww)).
Proof.
  simpl. split.
  - apply (requestPoints_one_group master_execute self "r" None
             (PointNames N) d).
  - apply (requestPoints_one_group master_execute self "w"
             (Some (dict_of_pairs pairs))
             (PointNames (map_to_list (dict_of_pairs pairs)).*1) d).
Qed.

Lemma group_by_type_same_names (self : client) (N N' : list string)
    (bt : blocktype) :
  list_to_set N =@{gset string} list_to_set N' →
  group_by_type (slave_points self) N bt
  = group_by_type (slave_points self) N' bt.
Proof.
  intros Hset. rewrite !group_by_type_filter. f_equal.
  apply list_filter_iff. intros pt.
  rewrite <- !(elem_of_list_to_set (C:=gset string)). by rewrite Hset.
Qed.

(** X3: what a read does to the device and the calls it makes depend on the set
    of the requested names only: their order does not matter and a name
    requested twice is read once. *)
Theorem read_calls_by_name_set {Dev TErr : Type}
    (master_execute : Dev → request → Dev * (TErr + list Z))
    (self : client) (N N' : list string) (d : Dev) :
  list_to_set N =@{gset string} list_to_set N' →
  (readPoints master_execute self (PointNames N) (start d)).1
  = (readPoints master_execute self (PointNames N') (start d)).1.
Proof.
  intros Hset. unfold readPoints, _requestPoints.
  change (bool_decide ("r" ≠ "r") && bool_decide ("r" ≠ "w")) with false.
  cbv iota zeta.
  rewrite !bind_silent_world.
  - f_equal. apply foldM_ext. intros [base replies] bt w.
    by rewrite (group_by_type_same_names self N N').
  - intros final. case_decide; [|apply silent_ret].
    apply silent_bind; [|intros; apply silent_ret].
    apply silent_mapM. intros. apply silent_or_raise.
  - intros final. case_decide; [|apply silent_ret].
    apply silent_bind; [|intros; apply silent_ret].
    apply silent_mapM. intros. apply silent_or_raise.
Qed.

Lemma read_calls_by_name_set_witness :
  (readPoints Stub.stub_execute four_registers
     (PointNames ["p25"; "p10"; "p25"]) (start Stub.mem_addr)).1
  = (readPoints Stub.stub_execute four_registers
       (PointNames ["p10"; "p25"]) (start Stub.mem_addr)).1.
Proof.
  apply (read_calls_by_name_set Stub.stub_execute four_registers).
  vm_compute. reflexivity.
Defined.

Lemma filter_none {A : Type} (P : A → Prop) `{!∀ x, Decision (P x)}
    (l : list A) :
  (∀ x, x ∈ l → ¬ P x) → filter P l = [].
Proof.
  induction l as [|a l IH]; intros Hl; [done|].
  rewrite filter_cons_False by (apply Hl; left).
  apply IH. intros x Hx. apply Hl. by right.
Qed.

(** X8: a write none of whose names is in the points list returns [None]
    without a group or a call to the transport, and leaves the device as it
    was: the unknown names are dropped without an error. *)
Theorem write_unknown_names_dropped {Dev TErr : Type}
    (master_execute : Dev → request → Dev * (TErr + list Z))
    (self : client) (pairs : list (string * Z)) (d : Dev) :
  Forall (λ kv, kv.1 ∉ pt_name <$> slave_points self) pairs →
  writePoints master_execute self (PointsValues pairs) (start d)
  = (start d, inr None).
Proof.
  intros Hunknown.
  change (writePoints master_execute self (PointsValues pairs) (start d))
    with (_requestPoints master_execute self "w"
            (Some (dict_of_pairs pairs))
            (PointNames (map_to_list (dict_of_pairs pairs)).*1) (start d)).
  rewrite requestPoints_passes.
  change (bool_decide ("w" ≠ "r") && bool_decide ("w" ≠ "w")) with false.
  cbv iota zeta.
  assert (∀ bt, sort_by_addr
                  (group_by_type (slave_points self)
                     (map_to_list (dict_of_pairs pairs)).*1 bt) = [])
    as Hnone.
  { intros bt. rewrite group_by_type_filter.
    rewrite (filter_none (λ pt, pt_name pt ∈ _)); [done|].
    intros pt Hpt Hname. apply dict_of_pairs_keys in Hname.
    apply list_elem_of_fmap in Hname as (kv & Hkv & Hin).
    rewrite Forall_forall in Hunknown. apply (Hunknown kv Hin).
    rewrite <- Hkv. by apply list_elem_of_fmap_2. }
  assert (∀ keys acc (w : @world Dev),
            foldM (λ '(reqBaseAddr, replies) pointType,
                     type_pass master_execute self "w"
                       (Some (dict_of_pairs pairs)) pointType
                       (sort_by_addr
                          (group_by_type (slave_points self)
                             (map_to_list (dict_of_pairs pairs)).*1
                             pointType))
                       reqBaseAddr replies)
                  acc keys w
            = (w, inr acc)) as Hfold.
  { induction keys as [|bt keys IH]; intros [base replies] w; [done|].
    simpl foldM. rewrite Hnone. unfold bind. simpl. apply IH. }
  unfold passes, bind. by rewrite Hfold.
Qed.

Lemma write_unknown_names_dropped_witness :
  writePoints Stub.stub_execute coil_and_input
    (PointsValues [("ghost", 1); ("phantom", 2)]) (start Stub.mem_addr)
  = (start Stub.mem_addr, inr None).
Proof.
  apply (write_unknown_names_dropped Stub.stub_execute coil_and_input).
  apply (bool_decide_unpack _). vm_compute. exact I.
Defined.

Lemma stored_is_Some (mem : blocktype → Z → Z) (l : list ptdesc)
    (replies : gmap string Z) (name : string) :
  name ∈ pt_name <$> l → is_Some (foldl (stored mem) replies l !! name).
Proof.
  revert replies. induction l as [|x l IH]; intros replies Hin.
  - by apply elem_of_nil in Hin.
  - simpl. destruct (decide (name ∈ pt_name <$> l)) as [Hl|Hl];
      [by apply IH|].
    rewrite stored_other.
    + rewrite fmap_cons in Hin. apply elem_of_cons in Hin as [->|?]; [|done].
      unfold stored. rewrite lookup_insert_eq. eauto.
    + intros q Hq <-. apply Hl. by apply list_elem_of_fmap_2.
Qed.

Lemma mapM_first_missing {Dev TErr : Type} (replies : gmap string Z)
    (l1 l2 : list string) (n : string) (w : @world Dev) :
  (∀ x, x ∈ l1 → is_Some (replies !! x)) → replies !! n = None →
  mapM_ (λ name, or_raise (TErr:=TErr) (KeyError name) (replies !! name))
        (l1 ++ n :: l2) w
  = (w, inl (KeyError n)).
Proof.
  induction l1 as [|x l1 IH]; intros Hl1 Hn; simpl.
  - unfold bind. by rewrite Hn.
  - unfold bind at 1. destruct (Hl1 x ltac:(left)) as [v ->]. simpl.
    unfold bind at 1. rewrite IH; [done| |done].
    intros y Hy. apply Hl1. by right.
Qed.

(** X4: when the transport answers reads from a memory, a read that asks for a
    name that is not in the points list raises [KeyError] with the first
    such name of the request, after the reads of the block types were
    made. *)
Theorem read_unknown_name_keyerror {Dev TErr : Type}
    (master_execute : Dev → request → Dev * (TErr + list Z))
    (self : client) (Holds : Dev → Prop) (mem : blocktype → Z → Z)
    (N : list string) (i : nat) (n : string) (d : Dev) :
  answers_reads master_execute (to_config_id self) Holds mem →
  Holds d →
  list_find (λ name, name ∉ pt_name <$> slave_points self) N = Some (i, n) →
  (readPoints master_execute self (PointNames N) (start d)).2
  = inl (KeyError n).
Proof.
  intros Hreads Hd Hfind.
  apply list_find_Some in Hfind as (Hi & Hn & Hbefore).
  destruct (foldM_reads master_execute self Holds mem Hreads N
              pointsByType_keys 0 ∅ (start d) Hd)
    as (w1 & base1 & Hw1 & Hfold).
  set (replies := foldl (stored mem) ∅ (visited self N pointsByType_keys))
    in *.
  unfold readPoints, _requestPoints.
  change (bool_decide ("r" ≠ "r") && bool_decide ("r" ≠ "w")) with false.
  cbv iota zeta. unfold bind at 1. rewrite Hfold.
  change ((base1, replies).2) with replies.
  destruct (decide ("r" = "r")); [|done].
  unfold bind.
  rewrite <- (take_drop_middle N i n Hi).
  rewrite mapM_first_missing; [done| |].
  - intros x Hx. apply stored_is_Some.
    apply list_elem_of_lookup in Hx as [j Hj].
    pose proof (lookup_lt_Some _ _ _ Hj) as Hlt.
    rewrite length_take in Hlt.
    rewrite lookup_take_lt in Hj by lia.
    destruct (decide (x ∈ pt_name <$> slave_points self)) as [Hx|Hx].
    + apply list_elem_of_fmap in Hx as (pt & -> & Hpt).
      apply list_elem_of_fmap_2, elem_of_visited. split; [done|].
      by eapply list_elem_of_lookup_2.
    + exfalso. apply (Hbefore j x Hj); [lia|done].
  - unfold replies. rewrite stored_other; [apply lookup_empty|].
    intros q Hq <-. apply Hn. apply list_elem_of_fmap_2.
    by apply elem_of_visited in Hq as [? _].
Qed.

Lemma read_unknown_name_keyerror_witness :
  (readPoints Stub.stub_execute coil_and_input
     (PointNames ["valve"; "ghost"; "alarm"; "phantom"])
     (start Stub.mem_addr)).2
  = inl (KeyError "ghost").
Proof.
  apply (read_unknown_name_keyerror Stub.stub_execute coil_and_input
           (λ d, d = Stub.mem_addr) Stub.mem_addr _ 1%nat).
  - apply stub_answers_reads.
  - reflexivity.
  - vm_compute. reflexivity.
Defined.

(** ** The calls of a write *)

(** [output_value] of the send block, when every member has a value. *)
Definition write_payload (dct : gmap string Z) (rp : list member)
    (first : member) : payload :=
  if bool_decide (1 < length rp)%nat
  then output_values ((λ p, dct !!! m_name p) <$> rp)
  else output_value (dct !!! m_name first).

(** The call a write issues for a group: from the address of the first
    member, with the single-item code and the value of the one member, or
    with the multi-item code and the values of the members in their
    order. *)
Definition write_call (self : client) (dct : gmap string Z) (g : group)
    (rq : request) : Prop :=
  ∃ first,
    head (grp_members g) = Some first
    ∧ req_slave rq = to_config_id self
    ∧ req_start rq = getaddr (m_pt first)
    ∧ ((length (grp_members g) = 1%nat
        ∧ req_function rq = (FUNCTION_MAP (grp_type g)).1.2
        ∧ ∃ v, dct !! m_name first = Some v
               ∧ req_payload rq = output_value v)
       ∨ ((2 ≤ length (grp_members g))%nat
          ∧ req_function rq = (FUNCTION_MAP (grp_type g)).2
          ∧ ∃ vs, Forall2 (λ p v, dct !! m_name p = Some v)
                          (grp_members g) vs
                  ∧ req_payload rq = output_values vs)).

Section WriteCalls.

Context {Dev TErr : Type}.
Variable master_execute : Dev → request → Dev * (TErr + list Z).
Variable self : client.
Variable dct : gmap string Z.

Abbreviation world := (@world Dev).
Abbreviation M := (@M Dev TErr).

Lemma bind_eq {A B : Type} (c : M A) (k : A → M B) (w w1 : world) (a : A) :
  c w = (w1, inr a) → bind c k w = k a w1.
Proof. intros Hc. unfold bind. by rewrite Hc. Qed.

Lemma bind_cong {A B : Type} (c : M A) (k k' : A → M B) (w : world) :
  (∀ a w1, k a w1 = k' a w1) → bind c k w = bind c k' w.
Proof. intros Hk. unfold bind. destruct (c w) as [w1 [e|a]]; auto. Qed.

(** The send block of a write whose members all have a value. *)
Lemma send_request_write (bt : blocktype) (rp : list member)
    (replies : gmap string Z) (first : member) (w : world) :
  head rp = Some first →
  (∀ p, p ∈ rp → is_Some (dct !! m_name p)) →
  send_request master_execute self "w" (Some dct) bt rp replies w
  = bind (log_group (Group bt (getaddr (m_pt first)) rp))
      (λ _,
        bind (execute master_execute
                (Request (to_config_id self)
                   (tuple_index (FUNCTION_MAP bt) (command_type "w" rp))
                   (getaddr (m_pt first)) (write_payload dct rp first)))
             (λ _, ret replies)) w.
Proof.
  intros Hh Hvals. unfold send_request, command_type.
  rewrite Hh.
  destruct (decide ("w" = "r")) as [?|_]; [done|].
  assert (∀ p (w0 : world), p ∈ rp →
            values_get (TErr:=TErr) (Some dct) (m_name p) w0
            = (w0, inr (dct !!! m_name p))) as Hget.
  { intros p w0 Hp. destruct (Hvals p Hp) as [v Hv].
    unfold values_get. rewrite lookup_total_alt, Hv. done. }
  rewrite (bind_eq _ _ w w first) by done.
  apply bind_cong. intros _ w1.
  rewrite (bind_eq _ _ w1 w1 (write_payload dct rp first)); [done|].
  unfold write_payload. case_bool_decide.
  - rewrite (bind_eq _ _ w1 w1 ((λ p, dct !!! m_name p) <$> rp)); [done|].
    apply mapM_pure_ok. intros p Hp. by apply Hget.
  - rewrite (bind_eq _ _ w1 w1 (dct !!! m_name first)); [done|].
    apply Hget. destruct rp; [done|]. injection Hh as ->. left.
Qed.

Lemma write_payload_values (rp : list member) :
  (∀ p, p ∈ rp → is_Some (dct !! m_name p)) →
  Forall2 (λ p v, dct !! m_name p = Some v) rp
          ((λ p, dct !!! m_name p) <$> rp).
Proof.
  induction rp as [|p rp IH]; intros Hvals; [constructor|].
  rewrite fmap_cons. constructor.
  - destruct (Hvals p ltac:(left)) as [v Hv].
    by rewrite lookup_total_alt, Hv.
  - apply IH. intros q Hq. apply Hvals. by right.
Qed.

(** What one pass through the send block of such a write adds to the
    logs. *)
Lemma send_write_logs (bt : blocktype) (rp : list member)
    (replies : gmap string Z) (first : member) (w : world) :
  head rp = Some first →
  (∀ p, p ∈ rp → is_Some (dct !! m_name p)) →
  ∃ rq,
    w_groups (send_request master_execute self "w" (Some dct) bt rp
                replies w).1
    = w_groups w ++ [Group bt (getaddr (m_pt first)) rp]
    ∧ w_calls (send_request master_execute self "w" (Some dct) bt rp
                 replies w).1
      = w_calls w ++ [rq]
    ∧ write_call self dct (Group bt (getaddr (m_pt first)) rp) rq.
Proof.
  intros Hh Hvals. rewrite (send_request_write _ _ _ first); [|done..].
  eexists. unfold bind, log_group, execute. simpl.
  destruct (master_execute _ _) as [d' [e|reply]]; simpl.
  all: split; [done|]; split; [done|].
  all: exists first; simpl; split_and!; [done..|].
  all: unfold command_type, write_payload;
    rewrite decide_False by done; case_bool_decide.
  all: try (right; split; [lia|]; split; [done|];
            eexists; split; [by apply write_payload_values|done]).
  all: left; split; [destruct rp as [|? [|? ?]]; simpl in *; [done|done|lia]|];
    split; [done|];
    destruct (Hvals first) as [v Hv];
      [destruct rp; [done|]; injection Hh as ->; left|];
    exists v; by rewrite lookup_total_alt, Hv.
Qed.

End WriteCalls.

Lemma foldM_world_inv {Dev TErr A S : Type} (I : @world Dev → Prop)
    (f : S → A → @M Dev TErr S) (l : list A) :
  (∀ s a w, I w → I (f s a w).1) →
  ∀ s w, I w → I (foldM f s l w).1.
Proof.
  intros Hf. induction l as [|a l IH]; intros s w Hw; [done|].
  simpl. unfold bind. specialize (Hf s a w Hw).
  destruct (f s a w) as [w1 [e|s1]]; [done|]. by apply IH.
Qed.

Lemma dict_key_is_Some (dct : gmap string Z) (name : string) :
  name ∈ (map_to_list dct).*1 → is_Some (dct !! name).
Proof.
  intros Hin. apply list_elem_of_fmap in Hin as ([k v] & -> & Hkv).
  apply elem_of_map_to_list in Hkv. eauto.
Qed.

(** The world a write ends in is that of its four passes. *)
Lemma writePoints_world {Dev TErr : Type}
    (master_execute : Dev → request → Dev * (TErr + list Z))
    (self : client) (pairs : list (string * Z)) (w : @world Dev) :
  (writePoints master_execute self (PointsValues pairs) w).1
  = (passes master_execute self "w" (Some (dict_of_pairs pairs))
       (map_to_list (dict_of_pairs pairs)).*1 w).1.
Proof.
  change (writePoints master_execute self (PointsValues pairs) w)
    with (_requestPoints master_execute self "w"
            (Some (dict_of_pairs pairs))
            (PointNames (map_to_list (dict_of_pairs pairs)).*1) w).
  rewrite requestPoints_passes.
  change (bool_decide ("w" ≠ "r") && bool_decide ("w" ≠ "w")) with false.
  cbv iota zeta. apply bind_silent_world.
  intros final. case_decide; [done|]. apply silent_ret.
Qed.

(** Every group of a write has its call: the write of the members' values
    from the address of the first member. *)
Lemma writePoints_write_calls {Dev TErr : Type}
    (master_execute : Dev → request → Dev * (TErr + list Z))
    (self : client) (pairs : list (string * Z)) (d : Dev) :
  let w' := (writePoints master_execute self (PointsValues pairs)
               (start d)).1 in
  Forall2 (write_call self (dict_of_pairs pairs)) (w_groups w') (w_calls w').
Proof.
  simpl. rewrite writePoints_world. unfold passes.
  apply (foldM_world_inv
           (λ w, Forall2 (write_call self (dict_of_pairs pairs))
                         (w_groups w) (w_calls w))); [|constructor].
  intros [base replies] bt w Hw. unfold type_pass.
  destruct (sort_by_addr _) as [|q l] eqn:Hsort; [done|].
  rewrite bind_silent_world by (intros; apply silent_ret).
  destruct (send_write_logs master_execute self (dict_of_pairs pairs) bt
              (members_of (getaddr q) (q :: l)) replies
              (member_of (getaddr q) q) w) as (rq & Hg & Hc & Hcall);
    [done| |].
  - intros p Hp. unfold members_of in Hp.
    apply list_elem_of_fmap in Hp as (pt & -> & Hpt).
    apply dict_key_is_Some. rewrite <- Hsort in Hpt.
    by apply elem_of_group_by_type in Hpt as (_ & ? & _).
  - rewrite Hg, Hc. apply Forall2_app; [done|]. by constructor.
Qed.

(** X6: the write counterpart of the calls of a read: for every group a write
    executes, exactly one call is made to the transport, in the order of the
    groups; it starts at the address of the group's first member and
    carries, for one member, the single-item write code and the member's
    value and, for two or more, the multi-item write code and the members'
    values in the order of the members. *)
Theorem write_group_one_call {Dev TErr : Type}
    (master_execute : Dev → request → Dev * (TErr + list Z))
    (self : client) (pairs : list (string * Z)) (d : Dev) :
  let w' := (writePoints master_execute self (PointsValues pairs)
               (start d)).1 in
  Forall2 (write_call self (dict_of_pairs pairs)) (w_groups w') (w_calls w').
Proof. apply writePoints_write_calls. Qed.

(** X7: a call that a write makes for a group of discrete inputs or of input
    registers carries no function code: the write is not refused before the
    transport. *)
Theorem write_read_only_no_code {Dev TErr : Type}
    (master_execute : Dev → request → Dev * (TErr + list Z))
    (self : client) (pairs : list (string * Z)) (d : Dev) :
  let w' := (writePoints master_execute self (PointsValues pairs)
               (start d)).1 in
  Forall2 (λ g rq,
             (grp_type g = DISCRETE_INPUTS ∨ grp_type g = ANALOG_INPUTS →
              req_function rq = None)
             ∧ (grp_type g = COILS ∨ grp_type g = HOLDING_REGISTERS →
                is_Some (req_function rq)))
          (w_groups w') (w_calls w').
Proof.
  simpl. eapply Forall2_impl; [apply writePoints_write_calls|].
  intros g rq (first & _ & _ & _ & Hcases). simpl in *.
  destruct Hcases as [(_ & -> & _)|(_ & -> & _)];
    split; intros [-> | ->]; simpl; eauto.
Qed.

(** ** A transport that fails *)

Lemma dict_of_pairs_has (pairs : list (string * Z)) (name : string) :
  name ∈ pairs.*1 → name ∈ (map_to_list (dict_of_pairs pairs)).*1.
Proof.
  intros Hin.
  assert (∀ d : gmap string Z,
            is_Some (d !! name) ∨ name ∈ pairs.*1 →
            is_Some (foldl (λ d kv, <[kv.1 := kv.2]> d) d pairs !! name))
    as Hgen.
  { clear Hin. induction pairs as [|[k v] pairs IH]; intros d Hd.
    - destruct Hd as [?|Hd]; [done|]. by apply elem_of_nil in Hd.
    - simpl. apply IH. destruct Hd as [Hd|Hd].
      + left. destruct (decide (k = name)) as [->|Hne].
        * rewrite lookup_insert_eq. eauto.
        * by rewrite lookup_insert_ne.
      + simpl in Hd. apply elem_of_cons in Hd as [->|Hd]; [|by right].
        left. rewrite lookup_insert_eq. eauto. }
  destruct (Hgen ∅ (or_intror Hin)) as [v Hv].
  apply list_elem_of_fmap. exists (name, v). split; [done|].
  by apply elem_of_map_to_list.
Qed.

Section FailingTransport.

Context {Dev TErr : Type}.
Variable master_execute : Dev → request → Dev * (TErr + list Z).
Variable self : client.
Variable e0 : TErr.

Hypothesis Hfail : ∀ d rq, (master_execute d rq).2 = inl e0.

Abbreviation world := (@world Dev).
Abbreviation M := (@M Dev TErr).

(** The outcome of a request stopped by the transport at its first call. *)
Definition stopped {A : Type} (w : world) (r : world * (exn + A)) : Prop :=
  r.2 = inl (TransportError e0)
  ∧ length (w_calls r.1) = S (length (w_calls w)).

Lemma execute_fails {A : Type} (rq : request) (k : list Z → M A)
    (g : group) (w : world) :
  stopped w (bind (log_group g) (λ _, bind (execute master_execute rq) k) w).
Proof.
  unfold stopped, bind, log_group, execute. simpl.
  specialize (Hfail (w_dev w) rq).
  destruct (master_execute (w_dev w) rq) as [d' [e|reply]]; simpl in *;
    [|done].
  injection Hfail as ->. split; [done|]. rewrite length_app. simpl. lia.
Qed.

Lemma passes_stopped (rw : string) (values : option (gmap string Z))
    (names : list string) (keys : list blocktype) :
  (∀ bt q l replies w,
     sort_by_addr (group_by_type (slave_points self) names bt) = q :: l →
     stopped w (send_request master_execute self rw values bt
                  (members_of (getaddr q) (q :: l)) replies w)) →
  Exists (λ bt, sort_by_addr
                  (group_by_type (slave_points self) names bt) ≠ []) keys →
  ∀ acc w,
    stopped w
      (foldM (λ '(reqBaseAddr, replies) pointType,
                type_pass master_execute self rw values pointType
                  (sort_by_addr
                     (group_by_type (slave_points self) names pointType))
                  reqBaseAddr replies)
             acc keys w).
Proof.
  intros Hsend. induction keys as [|bt keys IH]; intros Hex [base replies] w.
  - by apply Exists_nil in Hex.
  - simpl foldM. unfold type_pass at 1.
    destruct (sort_by_addr
                (group_by_type (slave_points self) names bt))
      as [|q l] eqn:Hsort.
    + apply Exists_cons in Hex as [Hex|Hex]; [by rewrite Hsort in Hex|].
      unfold bind at 1. simpl. by apply IH.
    + specialize (Hsend bt q l replies w Hsort).
      destruct Hsend as [Hres Hlen]. unfold stopped, bind.
      destruct (send_request _ _ _ _ _ _ _ w) as [w1 [e|r1]];
        simpl in *; [injection Hres as ->; by split|done].
Qed.

Lemma requested_type_not_empty (names : list string) :
  Exists (λ pt, pt_name pt ∈ names) (slave_points self) →
  Exists (λ bt, sort_by_addr
                  (group_by_type (slave_points self) names bt) ≠ [])
         pointsByType_keys.
Proof.
  intros Hex. apply Exists_exists in Hex as (pt & Hpt & Hname).
  apply Exists_exists. exists (pt_blocktype pt). split.
  - unfold pointsByType_keys. destruct (pt_blocktype pt); set_solver.
  - intros Hnil.
    assert (pt ∈ sort_by_addr
                   (group_by_type (slave_points self) names
                      (pt_blocktype pt))) as Hin
      by by apply elem_of_group_by_type.
    rewrite Hnil in Hin. by apply elem_of_nil in Hin.
Qed.

Lemma readPoints_stopped (N : list string) (d : Dev) :
  Exists (λ pt, pt_name pt ∈ N) (slave_points self) →
  stopped (start d) (readPoints master_execute self (PointNames N) (start d)).
Proof.
  intros Hex. unfold readPoints. rewrite requestPoints_passes.
  change (bool_decide ("r" ≠ "r") && bool_decide ("r" ≠ "w")) with false.
  cbv iota zeta.
  destruct (passes_stopped "r" None N pointsByType_keys) with
    (acc := (0, ∅ : gmap string Z)) (w := start d) as [Hres Hlen].
  - intros bt q l replies w Hsort.
    destruct (proj2 (last_is_Some (members_of (getaddr q) (q :: l))))
      as [final Hlast]; [done|].
    rewrite (send_request_read master_execute self bt _ replies
               (member_of (getaddr q) q) final); [|done..].
    apply execute_fails.
  - by apply requested_type_not_empty.
  - unfold stopped, passes, bind.
    destruct (foldM _ _ _ _) as [w1 [e|final]]; simpl in *;
      [injection Hres as ->; by split|done].
Qed.

Lemma writePoints_stopped (pairs : list (string * Z)) (d : Dev) :
  Exists (λ pt, pt_name pt ∈ pairs.*1) (slave_points self) →
  stopped (start d)
          (writePoints master_execute self (PointsValues pairs) (start d)).
Proof.
  intros Hex.
  change (writePoints master_execute self (PointsValues pairs) (start d))
    with (_requestPoints master_execute self "w"
            (Some (dict_of_pairs pairs))
            (PointNames (map_to_list (dict_of_pairs pairs)).*1) (start d)).
  rewrite requestPoints_passes.
  change (bool_decide ("w" ≠ "r") && bool_decide ("w" ≠ "w")) with false.
  cbv iota zeta.
  destruct (passes_stopped "w" (Some (dict_of_pairs pairs))
              (map_to_list (dict_of_pairs pairs)).*1 pointsByType_keys) with
    (acc := (0, ∅ : gmap string Z)) (w := start d) as [Hres Hlen].
  - intros bt q l replies w Hsort.
    rewrite (send_request_write master_execute self (dict_of_pairs pairs)
               bt _ replies (member_of (getaddr q) q)); [|done|].
    + apply execute_fails.
    + intros p Hp. unfold members_of in Hp.
      apply list_elem_of_fmap in Hp as (pt & -> & Hpt).
      apply dict_key_is_Some. rewrite <- Hsort in Hpt.
      by apply elem_of_group_by_type in Hpt as (_ & ? & _).
  - apply requested_type_not_empty.
    eapply Exists_impl; [exact Hex|].
    intros pt Hpt. by apply dict_of_pairs_has.
  - unfold stopped, passes, bind.
    destruct (foldM _ _ _ _) as [w1 [e|final]]; simpl in *;
      [injection Hres as ->; by split|done].
Qed.

End FailingTransport.

(** X9: when the transport raises on every call, a read or a write that names
    at least one point of the points list makes exactly one call and ends
    with the transport's exception: nothing is tried again and the groups
    of the other block types are not sent. *)
Theorem failing_transport_one_call {Dev TErr : Type}
    (master_execute : Dev → request → Dev * (TErr + list Z))
    (self : client) (e0 : TErr) (N : list string)
    (pairs : list (string * Z)) (d : Dev) :
  (∀ d rq, (master_execute d rq).2 = inl e0) →
  Exists (λ pt, pt_name pt ∈ N) (slave_points self) →
  Exists (λ pt, pt_name pt ∈ pairs.*1) (slave_points self) →
  let rr := readPoints master_execute self (PointNames N) (start d) in
  let rw := writePoints master_execute self (PointsValues pairs) (start d) in
  (rr.2 = inl (TransportError e0) ∧ length (w_calls rr.1) = 1%nat)
  ∧ (rw.2 = inl (TransportError e0) ∧ length (w_calls rw.1) = 1%nat).
Proof.
  intros Hfail HN Hpairs. simpl. split.
  - by apply (readPoints_stopped master_execute self e0 Hfail N d).
  - by apply (writePoints_stopped master_execute self e0 Hfail pairs d).
Qed.

Lemma failing_transport_one_call_witness :
  let dead := λ (d : unit) (rq : request),
                (d, inl "timeout" : string + list Z) in
  let rr := readPoints dead coil_and_input (PointNames ["valve"; "alarm"])
              (start tt) in
  let rw := writePoints dead coil_and_input
              (PointsValues [("valve", 1); ("alarm", 0)]) (start tt) in
  (rr.2 = inl (TransportError "timeout") ∧ length (w_calls rr.1) = 1%nat)
  ∧ (rw.2 = inl (TransportError "timeout") ∧ length (w_calls rw.1) = 1%nat).
Proof.
  apply (failing_transport_one_call
           (λ (d : unit) (rq : request), (d, inl "timeout" : string + list Z))
           coil_and_input "timeout").
  - reflexivity.
  - apply (bool_decide_unpack _). vm_compute. exact I.
  - apply (bool_decide_unpack _). vm_compute. exact I.
Defined.

(** ** Writing and reading back *)

(** The transport keeps, for the slave [slave], a memory that [view] shows:
    a read answers from it and leaves it as it is, a single-item write
    stores the value at the address, a multi-item write stores the values
    from the address on, and a write leaves the other block types alone. *)
Definition echoes {Dev TErr : Type}
    (master_execute : Dev → request → Dev * (TErr + list Z))
    (slave : Z) (view : Dev → blocktype → Z → Z) : Prop :=
  (∀ d bt addr n,
     0 < n →
     ∃ d', master_execute d
             (Request slave (FUNCTION_MAP bt).1.1 addr (quantity_of_x n))
           = (d', inr (view d bt <$> seqZ addr n))
           ∧ ∀ bt' a, view d' bt' a = view d bt' a)
  ∧ (∀ d bt addr v,
       is_Some (FUNCTION_MAP bt).1.2 →
       ∃ d' reply,
         master_execute d
           (Request slave (FUNCTION_MAP bt).1.2 addr (output_value v))
         = (d', inr reply)
         ∧ view d' bt addr = v
         ∧ ∀ bt' a, bt' ≠ bt → view d' bt' a = view d bt' a)
  ∧ (∀ d bt addr vs,
       is_Some (FUNCTION_MAP bt).2 →
       ∃ d' reply,
         master_execute d
           (Request slave (FUNCTION_MAP bt).2 addr (output_values vs))
         = (d', inr reply)
         ∧ (∀ i v, vs !! i = Some v → view d' bt (addr + Z.of_nat i) = v)
         ∧ ∀ bt' a, bt' ≠ bt → view d' bt' a = view d bt' a).

(** The addresses of the points are consecutive, from that of the first. *)
Definition contiguous (pts : list ptdesc) : Prop :=
  getaddr <$> pts
  = seqZ (default 0 (getaddr <$> head pts)) (Z.of_nat (length pts)).

(** The requested points of the block type [bt] can be written with one
    call: their addresses are consecutive and the block type has write
    codes. *)
Definition one_call_writable (self : client) (names : list string)
    (bt : blocktype) : Prop :=
  let pts := sort_by_addr (group_by_type (slave_points self) names bt) in
  contiguous pts ∧ (pts ≠ [] → is_Some (FUNCTION_MAP bt).1.2).

#[global] Instance contiguous_dec (pts : list ptdesc) :
  Decision (contiguous pts).
Proof. unfold contiguous. apply _. Defined.

#[global] Instance one_call_writable_dec (self : client)
    (names : list string) (bt : blocktype) :
  Decision (one_call_writable self names bt).
Proof. unfold one_call_writable. apply _. Defined.

Lemma contiguous_lookup (pts : list ptdesc) (q p : ptdesc) (i : nat) :
  contiguous pts → head pts = Some q → pts !! i = Some p →
  getaddr p = getaddr q + Z.of_nat i.
Proof.
  unfold contiguous. intros Hc Hq Hi. rewrite Hq in Hc. simpl in Hc.
  assert ((getaddr <$> pts) !! i = Some (getaddr p)) as Hp
    by by rewrite list_lookup_fmap, Hi.
  rewrite Hc in Hp. apply lookup_seqZ in Hp as [-> _]. done.
Qed.

Section WriteBack.

Context {Dev TErr : Type}.
Variable master_execute : Dev → request → Dev * (TErr + list Z).
Variable self : client.
Variable view : Dev → blocktype → Z → Z.
Variable dct : gmap string Z.
Variable names : list string.

Hypothesis Hecho : echoes master_execute (to_config_id self) view.
Hypothesis Hnames : ∀ name, name ∈ names → is_Some (dct !! name).

Abbreviation world := (@world Dev).
Abbreviation M := (@M Dev TErr).

(** The points of the block type [bt] the request names. *)
Definition requested (bt : blocktype) : list ptdesc :=
  sort_by_addr (group_by_type (slave_points self) names bt).

Lemma bind_left {A B : Type} (c c' : M A) (k : A → M B) (w : world) :
  c w = c' w → bind c k w = bind c' k w.
Proof. intros Hc. unfold bind. by rewrite Hc. Qed.

Lemma writable_multi (bt : blocktype) :
  is_Some (FUNCTION_MAP bt).1.2 → is_Some (FUNCTION_MAP bt).2.
Proof. destruct bt; simpl; intros [? ?]; eauto; done. Qed.

(** The pass of a block type whose points can be written with one call
    succeeds, leaves each point's value at the point's address and does not
    touch the other block types. *)
Lemma type_pass_written (bt : blocktype) (base : Z)
    (replies : gmap string Z) (w : world) :
  one_call_writable self names bt →
  ∃ w' acc',
    type_pass master_execute self "w" (Some dct) bt (requested bt) base
              replies w
    = (w', inr acc')
    ∧ (∀ bt' a, bt' ≠ bt → view (w_dev w') bt' a = view (w_dev w) bt' a)
    ∧ (∀ p, p ∈ requested bt →
            view (w_dev w') bt (getaddr p) = dct !!! pt_name p).
Proof.
  unfold one_call_writable. fold (requested bt). intros [Hcont Hwr].
  assert (∀ p, p ∈ requested bt → pt_name p ∈ names) as Hin.
  { intros p Hp. by apply elem_of_group_by_type in Hp as (_ & ? & _). }
  destruct (requested bt) as [|q l] eqn:Hreq.
  { exists w, (base, replies). split_and!; [done|done|].
    intros p Hp. by apply elem_of_nil in Hp. }
  specialize (Hwr ltac:(done)).
  unfold type_pass.
  assert (∀ rq d' reply,
            master_execute (w_dev w) rq = (d', inr reply) →
            bind (bind (log_group (Group bt (getaddr q)
                                     (members_of (getaddr q) (q :: l))))
                       (λ _, bind (execute master_execute rq)
                                  (λ _, ret replies)))
                 (λ replies', ret (getaddr q, replies')) w
            = (World d'
                 (w_groups w
                  ++ [Group bt (getaddr q) (members_of (getaddr q) (q :: l))])
                 (w_calls w ++ [rq]),
               inr (getaddr q, replies))) as Hrun.
  { intros rq d' reply Hex. unfold bind, log_group, execute. simpl.
    by rewrite Hex. }
  destruct Hecho as (_ & Hone & Hmany).
  destruct l as [|q2 l].
  - destruct (Hone (w_dev w) bt (getaddr q) (dct !!! pt_name q) Hwr)
      as (d' & reply & Hex & Hat & Hother).
    eexists _, _. split_and!.
    + erewrite bind_left;
        [|apply (send_request_write master_execute self dct bt _ replies
                   (member_of (getaddr q) q)); [done|]].
      * apply (Hrun _ d' reply). exact Hex.
      * intros p Hp. apply list_elem_of_singleton in Hp as ->.
        apply Hnames, Hin. left.
    + done.
    + intros p Hp. apply list_elem_of_singleton in Hp as ->. done.
  - destruct (Hmany (w_dev w) bt (getaddr q)
                ((λ p, dct !!! m_name p)
                   <$> members_of (getaddr q) (q :: q2 :: l))
                (writable_multi bt Hwr))
      as (d' & reply & Hex & Hat & Hother).
    eexists _, _. split_and!.
    + erewrite bind_left;
        [|apply (send_request_write master_execute self dct bt _ replies
                   (member_of (getaddr q) q)); [done|]].
      * apply (Hrun _ d' reply). exact Hex.
      * intros p Hp. unfold members_of in Hp.
        apply list_elem_of_fmap in Hp as (pt & -> & Hpt).
        by apply Hnames, Hin.
    + done.
    + intros p Hp. simpl.
      apply list_elem_of_lookup in Hp as [i Hi].
      rewrite (contiguous_lookup _ q p i Hcont eq_refl Hi).
      apply Hat. unfold members_of.
      by rewrite !list_lookup_fmap, Hi.
Qed.

(** The passes of a write all of whose block types can be written with one
    call. *)
Lemma passes_written (keys : list blocktype) :
  NoDup keys →
  Forall (one_call_writable self names) keys →
  ∀ (acc : Z * gmap string Z) (w : world),
    ∃ w' acc',
      foldM (λ '(reqBaseAddr, replies) pointType,
               type_pass master_execute self "w" (Some dct) pointType
                 (sort_by_addr
                    (group_by_type (slave_points self) names pointType))
                 reqBaseAddr replies)
            acc keys w
      = (w', inr acc')
      ∧ (∀ bt a, bt ∉ keys → view (w_dev w') bt a = view (w_dev w) bt a)
      ∧ (∀ bt p, bt ∈ keys → p ∈ requested bt →
                 view (w_dev w') bt (getaddr p) = dct !!! pt_name p).
Proof.
  induction keys as [|bt keys IH]; intros Hnd Hall [base replies] w.
  - exists w, (base, replies). split_and!; [done|done|].
    intros bt p Hbt. by apply elem_of_nil in Hbt.
  - apply NoDup_cons in Hnd as [Hbt Hnd].
    apply Forall_cons in Hall as [Hthis Hall].
    destruct (type_pass_written bt base replies w Hthis)
      as (w1 & acc1 & Hpass & Hother1 & Hat1).
    destruct (IH Hnd Hall acc1 w1) as (w2 & acc2 & Hfold & Hother2 & Hat2).
    exists w2, acc2. split_and!.
    + simpl foldM. unfold bind. fold (requested bt). by rewrite Hpass.
    + intros bt' a Hbt'. apply not_elem_of_cons in Hbt' as [? ?].
      rewrite Hother2 by done. by apply Hother1.
    + intros bt' p Hbt' Hp. apply elem_of_cons in Hbt' as [->|Hbt'].
      * rewrite Hother2 by done. by apply Hat1.
      * by apply Hat2.
Qed.

End WriteBack.

Lemma elem_of_pointsByType_keys (bt : blocktype) : bt ∈ pointsByType_keys.
Proof.
  unfold pointsByType_keys. destruct bt; rewrite !elem_of_cons; tauto.
Qed.

Lemma NoDup_pointsByType_keys : NoDup pointsByType_keys.
Proof. apply (bool_decide_unpack _). vm_compute. exact I. Qed.

Lemma echoes_answers_reads {Dev TErr : Type}
    (master_execute : Dev → request → Dev * (TErr + list Z))
    (slave : Z) (view : Dev → blocktype → Z → Z) (d0 : Dev) :
  echoes master_execute slave view →
  answers_reads master_execute slave
    (λ d, ∀ bt a, view d bt a = view d0 bt a) (view d0).
Proof.
  intros (Hread & _ & _) d bt addr n Hd Hn.
  destruct (Hread d bt addr n Hn) as (d' & Hex & Hsame).
  exists d'. split.
  - intros bt' a. by rewrite Hsame.
  - rewrite Hex. do 2 f_equal. apply Forall_fmap_ext, Forall_forall.
    intros a _. apply Hd.
Qed.

(** X10: against a transport that keeps a memory, when the points list has one
    point per name and, for every block type, the written points of that
    type have consecutive addresses and the type has write codes,
    [writePoints] returns [None] and a [readPoints] that follows returns,
    for every written name of the points list, the value that was
    written. *)
Theorem write_then_read_back {Dev TErr : Type}
    (master_execute : Dev → request → Dev * (TErr + list Z))
    (self : client) (view : Dev → blocktype → Z → Z)
    (pairs : list (string * Z)) (N : list string) (d : Dev) :
  echoes master_execute (to_config_id self) view →
  NoDup (pt_name <$> slave_points self) →
  Forall (one_call_writable self (map_to_list (dict_of_pairs pairs)).*1)
         pointsByType_keys →
  Forall (λ name, name ∈ pairs.*1 ∧ name ∈ pt_name <$> slave_points self)
         N →
  let r1 := writePoints master_execute self (PointsValues pairs) (start d) in
  r1.2 = inr None
  ∧ (readPoints master_execute self (PointNames N) (start (w_dev r1.1))).2
    = inr (Some ((λ name, dict_of_pairs pairs !!! name) <$> N)).
Proof.
  intros Hecho Hnd Hall HN.
  set (dct := dict_of_pairs pairs) in *.
  set (names := (map_to_list dct).*1) in *.
  destruct (passes_written master_execute self view dct names Hecho
              (dict_key_is_Some dct) pointsByType_keys
              NoDup_pointsByType_keys Hall (0, ∅) (start d))
    as (w' & acc' & Hfold & _ & Hat).
  assert (writePoints master_execute self (PointsValues pairs) (start d)
          = (w', inr None)) as ->.
  { change (writePoints master_execute self (PointsValues pairs) (start d))
      with (_requestPoints master_execute self "w" (Some dct)
              (PointNames names) (start d)).
    rewrite requestPoints_passes.
    change (bool_decide ("w" ≠ "r") && bool_decide ("w" ≠ "w")) with false.
    cbv iota zeta. unfold passes, bind. rewrite Hfold. done. }
  simpl. split; [done|].
  rewrite Forall_forall in HN.
  destruct (readPoints_resolved master_execute self _ _
              (echoes_answers_reads master_execute _ view (w_dev w') Hecho)
              (PointNames N) (w_dev w')) as (w2 & replies & Hrun & Hlook);
    [done|done| |].
  { intros name Hname. by apply HN. }
  rewrite Hrun. simpl. do 2 f_equal.
  apply Forall_fmap_ext, Forall_forall. intros name Hname.
  destruct (HN name Hname) as [Hpair Hdir].
  apply list_elem_of_fmap in Hdir as (pt & -> & Hpt).
  rewrite lookup_total_alt, (Hlook pt Hpt Hname). simpl.
  apply (Hat (pt_blocktype pt) pt).
  - apply elem_of_pointsByType_keys.
  - apply elem_of_group_by_type. split_and!; [done| |done].
    by apply dict_of_pairs_has.
Qed.

(** The stub slave keeps such a memory. *)
Lemma store_all_other (mem : Stub.memory) (bt bt' : blocktype) (addr a : Z)
    (vs : list Z) :
  bt' ≠ bt → Stub.store_all mem bt addr vs bt' a = mem bt' a.
Proof.
  intros Hne. revert mem addr.
  induction vs as [|v vs IH]; intros mem addr; [done|].
  simpl. rewrite IH. unfold Stub.store. by rewrite decide_False.
Qed.

Lemma store_all_before (mem : Stub.memory) (bt : blocktype) (addr a : Z)
    (vs : list Z) :
  a < addr → Stub.store_all mem bt addr vs bt a = mem bt a.
Proof.
  revert mem addr. induction vs as [|v vs IH]; intros mem addr Ha; [done|].
  simpl. rewrite IH by lia. unfold Stub.store.
  rewrite decide_True by done. rewrite decide_False by lia. done.
Qed.

Lemma store_all_at (mem : Stub.memory) (bt : blocktype) (addr : Z)
    (vs : list Z) (i : nat) (v : Z) :
  vs !! i = Some v →
  Stub.store_all mem bt addr vs bt (addr + Z.of_nat i) = v.
Proof.
  revert mem addr i. induction vs as [|v' vs IH]; intros mem addr i Hi;
    [done|].
  destruct i as [|i].
  - simpl in Hi. injection Hi as ->. cbn [Stub.store_all].
    rewrite store_all_before by lia.
    unfold Stub.store. rewrite decide_True by done.
    rewrite decide_True by lia. done.
  - simpl in Hi. cbn [Stub.store_all].
    replace (addr + Z.of_nat (S i)) with (addr + 1 + Z.of_nat i) by lia.
    by apply IH.
Qed.

Lemma stub_echoes (slave : Z) :
  echoes Stub.stub_execute slave (λ d, d).
Proof.
  split_and!.
  - intros d bt addr n Hn. exists d. split; [|done].
    unfold Stub.stub_execute, Stub.read_block.
    destruct bt; simpl; by rewrite bool_decide_eq_true_2 by done.
  - intros d bt addr v [code Hcode].
    destruct bt; simpl in Hcode; try done.
    all: eexists _, _; split; [reflexivity|]; simpl; split.
    all: try (unfold Stub.store; by rewrite !decide_True by done).
    all: intros bt' a Hne; unfold Stub.store; by rewrite decide_False.
  - intros d bt addr vs [code Hcode].
    destruct bt; simpl in Hcode; try done.
    all: eexists _, _; split; [reflexivity|]; simpl; split.
    all: try (intros i v Hi; by apply store_all_at).
    all: intros bt' a Hne; by apply store_all_other.
Qed.

(** Three holding registers at the consecutive addresses 10, 11 and 12,
    listed out of address order, and a coil. *)
Definition consecutive_registers : client :=
  Client 1 [Ptdesc "p11" HOLDING_REGISTERS 11;
            Ptdesc "valve" COILS 3;
            Ptdesc "p12" HOLDING_REGISTERS 12;
            Ptdesc "p10" HOLDING_REGISTERS 10].

Lemma write_then_read_back_witness :
  let r1 := writePoints Stub.stub_execute consecutive_registers
              (PointsValues [("p12", 120); ("valve", 1); ("p10", 100);
                             ("p11", 110)])
              (start Stub.mem_addr) in
  r1.2 = inr None
  ∧ (readPoints Stub.stub_execute consecutive_registers
       (PointNames ["p10"; "valve"; "p12"; "p11"]) (start (w_dev r1.1))).2
    = inr (Some ((λ name,
                    dict_of_pairs [("p12", 120); ("valve", 1); ("p10", 100);
                                   ("p11", 110)] !!! name)
                   <$> ["p10"; "valve"; "p12"; "p11"])).
Proof.
  apply (write_then_read_back Stub.stub_execute consecutive_registers
           (λ d, d)).
  - apply stub_echoes.
  - apply (bool_decide_unpack _). vm_compute. exact I.
  - apply (bool_decide_unpack _). vm_compute. exact I.
  - apply (bool_decide_unpack _). vm_compute. exact I.
Defined.

(** The same write and read, evaluated. *)
Example write_then_read_back_values :
  (readPoints Stub.stub_execute consecutive_registers
     (PointNames ["p10"; "valve"; "p12"; "p11"])
     (start (w_dev (writePoints Stub.stub_execute consecutive_registers
                      (PointsValues [("p12", 120); ("valve", 1);
                                     ("p10", 100); ("p11", 110)])
                      (start Stub.mem_addr)).1))).2
  = inr (Some [100; 1; 120; 110]).
Proof. vm_compute. done. Qed.

(** ** A reply that is too short *)

(** The outcome of a request that the exception [e] ends at its first
    call. *)
Definition ended_with {Dev TErr A : Type} (e : @exn TErr) (w : @world Dev)
    (r : @world Dev * (@exn TErr + A)) : Prop :=
  r.2 = inl e ∧ length (w_calls r.1) = S (length (w_calls w)).

Lemma some_type_requested (self : client) (names : list string) :
  Exists (λ pt, pt_name pt ∈ names) (slave_points self) →
  Exists (λ bt, sort_by_addr
                  (group_by_type (slave_points self) names bt) ≠ [])
         pointsByType_keys.
Proof.
  intros Hex. apply Exists_exists in Hex as (pt & Hpt & Hname).
  apply Exists_exists. exists (pt_blocktype pt).
  split; [apply elem_of_pointsByType_keys|].
  intros Hnil.
  assert (pt ∈ sort_by_addr
                 (group_by_type (slave_points self) names
                    (pt_blocktype pt))) as Hin
    by by apply elem_of_group_by_type.
  rewrite Hnil in Hin. by apply elem_of_nil in Hin.
Qed.

Section ShortReply.

Context {Dev TErr : Type}.
Variable master_execute : Dev → request → Dev * (TErr + list Z).
Variable self : client.

Hypothesis Hshort :
  ∀ d rq n,
    req_payload rq = quantity_of_x n → 0 < n →
    ∃ d' reply, master_execute d rq = (d', inr reply)
                ∧ Z.of_nat (length reply) < n.

Abbreviation world := (@world Dev).
Abbreviation M := (@M Dev TErr).

Lemma mapM_index_error (reply : list Z) (rp : list member) (w : world) :
  (∀ p, p ∈ rp → 0 ≤ m_offset p) →
  (∃ p, p ∈ rp ∧ Z.of_nat (length reply) ≤ m_offset p) →
  mapM_ (λ t, bind (or_raise (TErr:=TErr) IndexError
                      (py_index reply (m_offset t)))
                   (λ v, ret (m_name t, v)))
        rp w
  = (w, inl IndexError).
Proof.
  induction rp as [|t rp IH]; intros Hpos (p & Hp & Hlen).
  - by apply elem_of_nil in Hp.
  - simpl. unfold bind at 1. unfold bind at 1.
    destruct (py_index reply (m_offset t)) as [v|] eqn:Hidx; simpl; [|done].
    unfold bind at 1. rewrite IH; [done| |].
    + intros p' Hp'. apply Hpos. by right.
    + apply elem_of_cons in Hp as [->|Hp]; [|eauto].
      exfalso. unfold py_index in Hidx.
      rewrite bool_decide_eq_true_2 in Hidx by (apply Hpos; left).
      apply lookup_lt_Some in Hidx.
      specialize (Hpos t ltac:(left)). lia.
Qed.

Lemma send_short_reply (bt : blocktype) (q : ptdesc) (l : list ptdesc)
    (replies : gmap string Z) (w : world) :
  StronglySorted addr_le (q :: l) →
  ended_with IndexError w
    (send_request master_execute self "r" None bt
       (members_of (getaddr q) (q :: l)) replies w).
Proof.
  intros Hs.
  destruct (proj2 (last_is_Some (q :: l))) as [final Hlast]; [done|].
  rewrite (send_request_read master_execute self bt _ replies
             (member_of (getaddr q) q) (member_of (getaddr q) final));
    [|done|by unfold members_of; rewrite fmap_last, Hlast].
  destruct (Hshort (w_dev w)
              (Request (to_config_id self) (FUNCTION_MAP bt).1.1
                 (getaddr (m_pt (member_of (getaddr q) q)))
                 (quantity_of_x
                    (m_offset (member_of (getaddr q) final) + 1)))
              _ eq_refl) as (d' & reply & Hex & Hlen).
  { pose proof (sorted_last (q :: l) final q Hs Hlast ltac:(left)) as Hle.
    unfold addr_le in Hle. unfold m_offset, member_of. simpl. lia. }
  match goal with
  | |- ended_with _ _ ?c =>
      assert (∃ w' rq, c = (w', inl IndexError)
                       ∧ w_calls w' = w_calls w ++ [rq]) as Hrun
  end.
  2:{ destruct Hrun as (w' & rq & -> & Hc). split; [done|]. simpl.
      rewrite Hc, length_app. simpl. lia. }
  eexists _, _.
  unfold bind at 1, log_group at 1.
  unfold bind at 1, execute at 1. simpl w_dev. rewrite Hex.
  unfold bind at 1. rewrite mapM_index_error.
  - split; reflexivity.
  - intros p Hp. unfold members_of in Hp.
    apply list_elem_of_fmap in Hp as (pt & -> & Hpt).
    apply StronglySorted_cons in Hs as [Hle _].
    unfold m_offset, member_of. simpl.
    apply elem_of_cons in Hpt as [->|Hpt]; [lia|].
    rewrite Forall_forall in Hle. specialize (Hle pt Hpt).
    unfold addr_le in Hle. lia.
  - exists (member_of (getaddr q) final). split.
    + apply list_elem_of_fmap_2. by eapply last_Some_elem_of.
    + lia.
Qed.

Lemma readPoints_short_reply (N : list string) (d : Dev) :
  Exists (λ pt, pt_name pt ∈ N) (slave_points self) →
  ended_with IndexError (start d)
    (readPoints master_execute self (PointNames N) (start d)).
Proof.
  intros Hex. unfold readPoints. rewrite requestPoints_passes.
  change (bool_decide ("r" ≠ "r") && bool_decide ("r" ≠ "w")) with false.
  cbv iota zeta.
  assert (∀ keys acc (w : world),
            Exists (λ bt, sort_by_addr
                            (group_by_type (slave_points self) N bt) ≠ [])
                   keys →
            ended_with IndexError w
              (foldM (λ '(reqBaseAddr, replies) pointType,
                        type_pass master_execute self "r" None pointType
                          (sort_by_addr
                             (group_by_type (slave_points self) N pointType))
                          reqBaseAddr replies)
                     acc keys w)) as Hfold.
  { induction keys as [|bt keys IH]; intros [base replies] w Hkeys.
    - by apply Exists_nil in Hkeys.
    - simpl foldM. unfold type_pass at 1.
      pose proof (sort_by_addr_sorted
                    (group_by_type (slave_points self) N bt)) as Hs.
      destruct (sort_by_addr (group_by_type (slave_points self) N bt))
        as [|q l] eqn:Hsort.
      + apply Exists_cons in Hkeys as [Hkeys|Hkeys];
          [by rewrite Hsort in Hkeys|].
        unfold bind at 1. simpl. by apply IH.
      + destruct (send_short_reply bt q l replies w Hs) as [Hres Hlen].
        unfold ended_with, bind.
        destruct (send_request _ _ _ _ _ _ _ w) as [w1 [e|r1]];
          simpl in *; [injection Hres as ->; by split|done]. }
  destruct (Hfold pointsByType_keys (0, ∅ : gmap string Z) (start d))
    as [Hres Hlen].
  { by apply some_type_requested. }
  unfold ended_with, passes, bind.
  destruct (foldM _ _ _ _) as [w1 [e|final]]; simpl in *;
    [injection Hres as ->; by split|done].
Qed.

End ShortReply.

(** X5: when the transport answers every read with fewer values than the
    quantity asked for, a read that names at least one point of the points
    list raises [IndexError] after its first call: no partial tuple is
    returned. *)
Theorem short_reply_index_error {Dev TErr : Type}
    (master_execute : Dev → request → Dev * (TErr + list Z))
    (self : client) (N : list string) (d : Dev) :
  (∀ d rq n,
     req_payload rq = quantity_of_x n → 0 < n →
     ∃ d' reply, master_execute d rq = (d', inr reply)
                 ∧ Z.of_nat (length reply) < n) →
  Exists (λ pt, pt_name pt ∈ N) (slave_points self) →
  let r := readPoints master_execute self (PointNames N) (start d) in
  r.2 = inl IndexError ∧ length (w_calls r.1) = 1%nat.
Proof.
  intros Hshort HN. simpl.
  by apply (readPoints_short_reply master_execute self Hshort N d).
Qed.

Lemma short_reply_index_error_witness :
  let mute := λ (d : unit) (rq : request),
                (d, inr [] : string + list Z) in
  let r := readPoints mute four_registers (PointNames ["p12"; "p25"])
             (start tt) in
  r.2 = inl IndexError ∧ length (w_calls r.1) = 1%nat.
Proof.
  apply (short_reply_index_error
           (λ (d : unit) (rq : request), (d, inr [] : string + list Z))
           four_registers).
  - intros d rq n _ Hn. exists d, []. split; [reflexivity|]. simpl. lia.
  - apply (bool_decide_unpack _). vm_compute. exact I.
Defined.

(** ** The span of a read *)


